(** * A shallow embedding of the indexing and retrieval engine of
      [crawler_web/Crawler_logic.py]

    Modelling conventions.
    - Python [str] is [string]; the tokenizer is modelled on ASCII text.
    - Python [int] counters are [nat] (term frequencies) or [N] (document
      and part counters); both are unbounded, as Python integers are.
    - A weight is a Python [float]. The program is written once over an
      interface [Weight] of the arithmetic it uses. The instance of the
      code is [binary64], the kernel's IEEE 754 floats, which are
      Python's; [exact], the rationals [Qc], stands for the real numbers
      of the specification's data model ("Weight is a non-negative real
      number") and is used only to read the score as a sum.
      Properties that do not depend on the arithmetic are proved for every
      instance; properties of the numbers (order, bounds, the order of a
      summation) are proved for [binary64], from the specification of the
      float operations in [FloatAxioms].
    - A [dict] used as a map is a [gmap]; equality of [gmap]s is Python's
      [==] on dicts (same keys, same values, order ignored). The local
      [term_frequency] dict, which the code iterates, is an association
      list in insertion order.
    - A Python [set] is a [gset] where only membership is used, and a
      duplicate-free list, its iteration order, where the code iterates it.
    - Library code (the Porter stemmer, the JSON reader, BeautifulSoup) is
      taken as a parameter of the section that uses it. *)

From Stdlib Require Import Ascii String QArith Qcanon.
From Stdlib Require Import Floats.PrimFloat Floats.SpecFloat Floats.FloatOps Floats.FloatAxioms.
From stdpp Require Import numbers pretty sorting strings gmap fin_maps list.

#[local] Set Warnings "-clear-no-such-hyp".

(** ** Weights *)

Class Weight (W : Type) := {
  (** [0.0], the default of [defaultdict(float)], and the [0] that [sum]
      and [.get(doc, 0)] start from *)
  w_zero : W;
  (** the literal [0.5] *)
  w_half : W;
  (** an [int] taken into float arithmetic *)
  w_of_nat : nat → W;
  w_add : W → W → W;
  w_mul : W → W → W;
  w_div : W → W → W;
  (** [<], the comparison [sorted] uses *)
  w_ltb : W → W → bool
}.

Definition half : Qc := Q2Qc (1 # 2).
Definition Qc_of_nat (n : nat) : Qc := Qc_of_Z (Z.of_nat n).

#[global] Instance exact : Weight Qc := {|
  w_zero := 0%Qc;
  w_half := half;
  w_of_nat := Qc_of_nat;
  w_add := Qcplus;
  w_mul := Qcmult;
  w_div := Qcdiv;
  w_ltb := λ x y, bool_decide (x < y)%Qc
|}.

(** The float nearest to a positive integer; exact below 2^53. *)
Fixpoint float_of_positive (p : positive) : float :=
  match p with
  | xH => 1%float
  | xO p' => PrimFloat.mul 2%float (float_of_positive p')
  | xI p' => PrimFloat.add (PrimFloat.mul 2%float (float_of_positive p')) 1%float
  end.

Definition float_of_nat (n : nat) : float :=
  match N.of_nat n with
  | N0 => 0%float
  | Npos p => float_of_positive p
  end.

#[global] Instance binary64 : Weight float := {|
  w_zero := 0%float;
  w_half := 0.5%float;
  w_of_nat := float_of_nat;
  w_add := PrimFloat.add;
  w_mul := PrimFloat.mul;
  w_div := PrimFloat.div;
  w_ltb := PrimFloat.ltb
|}.

(** [tf = 0.5 + (0.5 * freq / max_tf)] *)
Definition tf_weight `{Weight W} (freq max_tf : nat) : W :=
  w_add w_half (w_div (w_mul w_half (w_of_nat freq)) (w_of_nat max_tf)).

(** [if token in key_tokens: tf *= 2] *)
Definition key_boost `{Weight W} (token : string) (key_tokens : list string) (tf : W) : W :=
  if decide (token ∈ key_tokens) then w_mul tf (w_of_nat 2) else tf.

(** ** The index: [defaultdict(lambda: defaultdict(float))] *)

Abbreviation Postings W := (gmap string W).
Abbreviation Index W := (gmap string (gmap string W)).

(** Reading [index[token][doc_id]] with the defaults of the two
    [defaultdict]s, without the insertion a real read would do. *)
Definition weight_of `{Weight W} (idx : Index W) (token doc_id : string) : W :=
  default w_zero (default ∅ (idx !! token) !! doc_id).

(** [inverted_index[token][doc_id] += tf] *)
Definition add_weight `{Weight W} (token doc_id : string) (tf : W) (idx : Index W)
    : Index W :=
  let postings := default ∅ (idx !! token) in
  <[token := <[doc_id := w_add (default w_zero (postings !! doc_id)) tf]> postings]> idx.

(** ** tokenize_and_normalize *)

Definition is_word_char (c : ascii) : bool :=
  let n := N_of_ascii c in
  ((48 <=? n) && (n <=? 57) || (65 <=? n) && (n <=? 90)
   || (97 <=? n) && (n <=? 122) || (n =? 95))%N.

Definition lower_char (c : ascii) : ascii :=
  let n := N_of_ascii c in
  if ((65 <=? n) && (n <=? 90))%N then ascii_of_N (n + 32) else c.

(** [text.lower()] *)
Fixpoint lower (s : string) : string :=
  match s with
  | EmptyString => EmptyString
  | String c s' => String (lower_char c) (lower s')
  end.

Definition flush_word (cur : string) : list string :=
  match cur with EmptyString => [] | _ => [cur] end.

(** [re.findall(r'\b\w+\b', s)]: the maximal runs of word characters, left
    to right. [cur] is the run being read. *)
Fixpoint findall_words_from (cur : string) (s : string) : list string :=
  match s with
  | EmptyString => flush_word cur
  | String c s' =>
      if is_word_char c then findall_words_from (cur +:+ String c EmptyString) s'
      else flush_word cur ++ findall_words_from EmptyString s'
  end.

Definition findall_words (s : string) : list string :=
  findall_words_from EmptyString s.

Section Normalizer.
(** [stemmer.stem], NLTK's Porter stemmer. *)
Variable stem : string → string.

Definition tokenize_and_normalize (text : string) : list string :=
  let tokens := findall_words (lower text) in
  foldl (λ stemmed_tokens token, stemmed_tokens ++ [stem token]) [] tokens.
End Normalizer.

(** ** build_inverted_index *)

(** [term_frequency[token] += 1] on a [defaultdict(int)]; a new key goes
    last. *)
Fixpoint tf_incr (token : string) (tf : list (string * nat)) : list (string * nat) :=
  match tf with
  | [] => [(token, 1)]
  | (t, n) :: tf' =>
      if decide (t = token) then (t, n + 1) :: tf' else (t, n) :: tf_incr token tf'
  end.

Definition count_terms (tokens : list string) : list (string * nat) :=
  foldl (λ tf token, tf_incr token tf) [] tokens.

(** [max(term_frequency.values())]; only called on a non-empty dict. *)
Definition max_values (tf : list (string * nat)) : nat :=
  foldr Nat.max 0 (tf.*2).

(** [doc_lengths[doc_id] = math.sqrt(sum_of_squares)]: the square root is
    kept symbolic. *)
Inductive doc_length := Sqrt (sum_of_squares : nat).

Definition sum_squares (tf : list (string * nat)) : nat :=
  foldl (λ sum_of_squares f, sum_of_squares + f ^ 2) 0 (tf.*2).

Definition build_inverted_index `{Weight W} (doc_id : string)
    (tokens key_tokens : list string)
    (st : Index W * gmap string doc_length) : Index W * gmap string doc_length :=
  let '(inverted_index, doc_lengths) := st in
  let term_frequency := count_terms tokens in
  match term_frequency with
  | [] => (inverted_index, doc_lengths)
  | _ =>
      let max_tf := max_values term_frequency in
      let inverted_index :=
        foldl (λ idx '(token, freq),
                 add_weight token doc_id
                   (key_boost token key_tokens (tf_weight freq max_tf)) idx)
              inverted_index term_frequency in
      (inverted_index, <[doc_id := Sqrt (sum_squares term_frequency)]> doc_lengths)
  end.

(** ** Reading and extracting one document *)

(** [s.endswith(suffix)] *)
Definition endswith (s suffix : string) : bool :=
  let n := String.length s in
  let k := String.length suffix in
  (k <=? n)%nat && bool_decide (substring (n - k) k s = suffix).

(** [os.path.join(root, file)] on a POSIX system *)
Definition path_join (root file : string) : string :=
  if String.prefix "/" file then file
  else if bool_decide (root = "") || endswith root "/" then root +:+ file
  else root +:+ "/" +:+ file.

(** [f"partial_index_{part_num}.json"] *)
Definition partial_name (part_num : N) : string :=
  "partial_index_" +:+ pretty part_num +:+ ".json".

(** The files written so far are a map from file name to the index
    serialized in the file. *)
Definition save_partial_index {W} (inverted_index : Index W) (part_num : N)
    (disk : gmap string (Index W)) : string * gmap string (Index W) :=
  let output_filename := partial_name part_num in
  (output_filename, <[output_filename := inverted_index]> disk).

(** The local variables of [process_all_documents], the two module
    globals and the files written. *)
Record ingest_state (W : Type) := {
  doc_count : N;
  part_num : N;
  partial_files : list string;
  inverted_index : Index W;
  doc_id_to_url : gmap string string;
  doc_lengths : gmap string doc_length;
  disk : gmap string (Index W)
}.
Arguments doc_count {W} _.
Arguments part_num {W} _.
Arguments partial_files {W} _.
Arguments inverted_index {W} _.
Arguments doc_id_to_url {W} _.
Arguments doc_lengths {W} _.
Arguments disk {W} _.

Section Ingestion.
Context `{Weight W}.
Variable stem : string → string.
(** [json.load] of the file at a path, as an object with string fields;
    [None] when opening or parsing raises. *)
Variable load_json : string → option (gmap string string).
(** The body of [extract_text_from_html]: BeautifulSoup's text and key
    text of an HTML string; [None] when it raises. *)
Variable html_extract : string → option (string * string).

Definition read_json_file (filepath : string) : string * string :=
  match load_json filepath with
  | Some data => (default "" (data !! "content"), default "" (data !! "url"))
  | None => ("", "")
  end.

Definition extract_text_from_html (htmlContent : string) : string * string :=
  match html_extract htmlContent with
  | Some (text, key_text) => (text, key_text)
  | None => ("", "")
  end.

(** The first half of the loop body, up to [doc_count += 1]: [None] when
    the file is passed over (its name does not end in [.json], or
    [continue] on empty content). *)
Definition add_document (root file : string) (st : ingest_state W)
    : option (ingest_state W) :=
  if endswith file ".json" then
    let file_path := path_join root file in
    let '(content, url) := read_json_file file_path in
    if bool_decide (content = "") then None
    else
      let '(text, key_text) := extract_text_from_html content in
      let tokens := tokenize_and_normalize stem text in
      let key_tokens := tokenize_and_normalize stem key_text in
      let '(idx, lens) :=
        build_inverted_index file_path tokens key_tokens
          (inverted_index st, doc_lengths st) in
      Some {| doc_count := doc_count st + 1;
              part_num := part_num st;
              partial_files := partial_files st;
              inverted_index := idx;
              doc_id_to_url := <[file_path := url]> (doc_id_to_url st);
              doc_lengths := lens;
              disk := disk st |}
  else None.

(** The second half, [if doc_count % 10000 == 0: ...]. *)
Definition flush_if_due (st : ingest_state W) : ingest_state W :=
  if (doc_count st mod 10000 =? 0)%N then
    let '(partial_filename, disk') :=
      save_partial_index (inverted_index st) (part_num st) (disk st) in
    {| doc_count := doc_count st;
       part_num := part_num st + 1;
       partial_files := partial_files st ++ [partial_filename];
       inverted_index := ∅;
       doc_id_to_url := doc_id_to_url st;
       doc_lengths := doc_lengths st;
       disk := disk' |}
  else st.

(** One turn of the inner loop, [for file in files]. *)
Definition ingest_file (root file : string) (st : ingest_state W) : ingest_state W :=
  match add_document root file st with
  | Some st' => flush_if_due st'
  | None => st
  end.

(** [for root, _, files in os.walk(directory): for file in files: ...];
    [walk] is what [os.walk(directory)] yields. *)
Definition ingest_loop (walk : list (string * list string))
    (st : ingest_state W) : ingest_state W :=
  foldl (λ st '(root, files), foldl (λ st file, ingest_file root file st) st files)
        st walk.

(** [if inverted_index: ...] after the loop *)
Definition final_flush (st : ingest_state W) : ingest_state W :=
  if bool_decide (inverted_index st = ∅) then st
  else
    let '(partial_filename, disk') :=
      save_partial_index (inverted_index st) (part_num st) (disk st) in
    {| doc_count := doc_count st;
       part_num := part_num st;
       partial_files := partial_files st ++ [partial_filename];
       inverted_index := inverted_index st;
       doc_id_to_url := doc_id_to_url st;
       doc_lengths := doc_lengths st;
       disk := disk' |}.

(** The state in which [process_all_documents] starts, given the module
    globals and the files present. *)
Definition start_state (urls : gmap string string)
    (lens : gmap string doc_length) (files : gmap string (Index W))
    : ingest_state W :=
  {| doc_count := 0; part_num := 1; partial_files := [];
     inverted_index := ∅;
     doc_id_to_url := urls; doc_lengths := lens; disk := files |}.

(** Returns [partial_files], next to the state it leaves. *)
Definition process_all_documents (walk : list (string * list string))
    (urls : gmap string string) (lens : gmap string doc_length)
    (files : gmap string (Index W)) : list string * ingest_state W :=
  let st := final_flush (ingest_loop walk (start_state urls lens files)) in
  (partial_files st, st).
End Ingestion.

(** ** merge_partial_indexes *)

(** [for doc_id, tf in postings.items(): final_index[token][doc_id] += tf] *)
Definition merge_postings `{Weight W} (token : string) (postings : Postings W)
    (final_index : Index W) : Index W :=
  map_fold (λ doc_id tf final_index, add_weight token doc_id tf final_index)
           final_index postings.

(** [for token, postings in partial_index.items(): ...] *)
Definition merge_segment `{Weight W} (partial_index : Index W) (final_index : Index W)
    : Index W :=
  map_fold (λ token postings final_index, merge_postings token postings final_index)
           final_index partial_index.

(** The loop over segments already read. *)
Definition merge_segments `{Weight W} (segments : list (Index W)) : Index W :=
  foldl (λ final_index partial_index, merge_segment partial_index final_index)
        ∅ segments.

(** [None] when a file of [partial_files] cannot be read; otherwise the
    final index, next to the files with the output file written. *)
Definition merge_partial_indexes `{Weight W} (partial_files : list string)
    (output_filename : string) (disk : gmap string (Index W))
    : option (Index W * gmap string (Index W)) :=
  final_index ← foldl (λ acc partial,
                         final_index ← acc;
                         partial_index ← disk !! partial;
                         Some (merge_segment partial_index final_index))
                      (Some ∅) partial_files;
  Some (final_index, <[output_filename := final_index]> disk).

(** ** Bool_Search *)

(** [set.intersection( *doc_sets )]; a [TypeError] without arguments. *)
Definition set_intersection (doc_sets : list (gset string)) : option (gset string) :=
  match doc_sets with
  | [] => None
  | s :: rest => Some (foldl (∩) s rest)
  end.

Section Query.
Context {W : Type}.
Variable stem : string → string.

(** [None] stands for a raised exception. *)
Definition Bool_Search (queries : string) (inverted_index : Index W)
    : option (gset string) :=
  let tokens := tokenize_and_normalize stem queries in
  match tokens with
  | [] => Some ∅
  | _ =>
      let doc_sets :=
        (λ token, dom (default ∅ (inverted_index !! token)))
          <$> filter (λ token, is_Some (inverted_index !! token)) tokens in
      match doc_sets with
      | [] => Some ∅
      | _ => match doc_sets with
             | [] => Some ∅
             | _ => set_intersection doc_sets
             end
      end
  end.
End Query.

(** ** print_top_5_urls *)

(** The sort key:
    [sum(inverted_index[token].get(doc, 0) for token in query_tokens
         if token in inverted_index)] *)
Definition score `{Weight W} (inverted_index : Index W) (query_tokens : list string)
    (doc : string) : W :=
  foldl w_add w_zero
    ((λ token, default w_zero (default ∅ (inverted_index !! token) !! doc))
       <$> filter (λ token, is_Some (inverted_index !! token)) query_tokens).

(** [sorted(l, key=key, reverse=True)] is a stable sort that compares keys
    with [<]: elements with equal keys keep their order. [insert_desc]
    puts [x], which comes before all of [l], in front of the first element
    whose key is not greater. *)
Fixpoint insert_desc `{Weight W} {A} (key : A → W) (x : A) (l : list A) : list A :=
  match l with
  | [] => [x]
  | y :: l' =>
      if w_ltb (key x) (key y) then y :: insert_desc key x l' else x :: l
  end.

Definition sorted_reverse `{Weight W} {A} (key : A → W) (l : list A) : list A :=
  foldr (insert_desc key) [] l.

Section Ranking.
Context `{Weight W}.
Variable stem : string → string.

(** [ranked_docs[:5]]; [result_docs] is the result set in its
    iteration order. *)
Definition top_docs (result_docs : list string) (inverted_index : Index W)
    (query : string) : list string :=
  let query_tokens := tokenize_and_normalize stem query in
  let ranked_docs := sorted_reverse (score inverted_index query_tokens) result_docs in
  take 5 ranked_docs.

Definition print_top_5_urls (doc_id_to_url : gmap string string)
    (result_docs : list string) (inverted_index : Index W) (query : string)
    : list string :=
  let top_docs := top_docs result_docs inverted_index query in
  (λ doc_id, default "URL Not Found" (doc_id_to_url !! doc_id)) <$> top_docs.
End Ranking.

(** ** Raw term frequency, read off the token list *)

Definition freq_of (t : string) (tokens : list string) : nat :=
  length (filter (λ x, x = t) tokens).

(** Reading [term_frequency[t]] (0 when absent). *)
Fixpoint tf_get (t : string) (tf : list (string * nat)) : nat :=
  match tf with
  | [] => 0
  | (t', n) :: tf' => if decide (t' = t) then n else tf_get t tf'
  end.

(** The stored weight of a pair, [None] when the pair is absent. *)
Definition posting {W} (idx : Index W) (token doc_id : string) : option W :=
  idx !! token ≫= λ postings, postings !! doc_id.

(** The largest raw term frequency of a document. *)
Definition max_freq (tokens : list string) : nat :=
  max_values (count_terms tokens).

(** The weights of a document's terms before the key-text boost, in the
    order of [term_frequency.items()]. *)
Definition preboost_weights `{Weight W} (tokens : list string) : list W :=
  let term_frequency := count_terms tokens in
  (λ '(_, freq), tf_weight freq (max_values term_frequency)) <$> term_frequency.

Definition Qc_sum (l : list Qc) : Qc := foldr Qcplus 0%Qc l.

(** ** The merge, stated pointwise *)

(** Adding the postings [p] of one term into the postings [q]. *)
Definition acc_postings `{Weight W} (p q : Postings W) : Postings W :=
  merge (λ ow oq, match ow with
                  | Some w => Some (w_add (default w_zero oq) w)
                  | None => oq
                  end) p q.

(** Adding a segment into an index: a term of the segment with no posting
    leaves no trace. *)
Definition acc_index `{Weight W} (seg final : Index W) : Index W :=
  merge (λ op ofinal, match op with
                      | Some p => if decide (p = ∅) then ofinal
                                  else Some (acc_postings p (default ∅ ofinal))
                      | None => ofinal
                      end) seg final.

(** The loop of [merge_partial_indexes] from any accumulator. *)
Definition merge_into `{Weight W} (final_index : Index W) (segments : list (Index W))
    : Index W :=
  foldl (λ final_index partial_index, merge_segment partial_index final_index)
        final_index segments.

(** The weights of a pair in the segments that hold it, in segment order. *)
Definition pair_weights {W} (segments : list (Index W)) (token doc_id : string)
    : list W :=
  omap (λ seg, posting seg token doc_id) segments.

(** ** Boolean search in the words of the specification *)

(** [d] is in the result when some query term is in the index and the
    posting list of every query term that is in the index holds [d]. *)
Definition matches_query {W} (tokens : list string) (idx : Index W) (d : string) : Prop :=
  (∃ t, t ∈ tokens ∧ is_Some (idx !! t))
  ∧ ∀ t p, t ∈ tokens → idx !! t = Some p → d ∈ dom p.

(** A stemmer for the examples: the Porter stemmer leaves the words used
    in them ("cat", "dog", "bird") as they are. *)
Definition stem_as_is (word : string) : string := word.

(** ** Ingestion, seen from outside *)

(** The names of the first [k] segments, in the order of their part numbers. *)
Definition part_names (k : nat) : list string :=
  (λ i, partial_name (N.of_nat i)) <$> seq 1 k.

(** The files that [os.walk] yields, each with its directory, in order. *)
Definition walk_files (walk : list (string * list string)) : list (string * string) :=
  walk ≫= λ '(root, files), (λ file, (root, file)) <$> files.

Section Documents.
Variable load_json : string → option (gmap string string).

(** The files the loop takes as documents: the name ends in [.json]
    and the content read is not empty. *)
Definition is_document (root_file : string * string) : Prop :=
  endswith root_file.2 ".json" = true
  ∧ (read_json_file load_json (path_join root_file.1 root_file.2)).1 ≠ "".

#[global] Instance is_document_dec root_file : Decision (is_document root_file).
Proof. unfold is_document. apply _. Defined.
End Documents.

(** What a run has flushed is fixed by the number of documents processed. *)
Definition flush_inv {W} (st : ingest_state W) : Prop :=
  part_num st = (doc_count st / 10000 + 1)%N
  ∧ partial_files st = part_names (N.to_nat (doc_count st / 10000)).

(** ** The floats of the code *)

(** The place of a float in the order of [<]: the sign class, then the
    exponent, then the mantissa. *)
Definition SFrank (x : spec_float) : Z * Z * Z :=
  match x with
  | S754_nan => (0, 0, 0)
  | S754_zero _ => (0, 0, 0)
  | S754_infinity true => (-2, 0, 0)
  | S754_infinity false => (2, 0, 0)
  | S754_finite true m e => (-1, - e, - Z.pos m)
  | S754_finite false m e => (1, e, Z.pos m)
  end%Z.

Definition rank_lt (a b : Z * Z * Z) : Prop :=
  (a.1.1 < b.1.1 ∨ (a.1.1 = b.1.1 ∧ (a.1.2 < b.1.2 ∨ (a.1.2 = b.1.2 ∧ a.2 < b.2))))%Z.

Definition rank_le (a b : Z * Z * Z) : Prop := rank_lt a b ∨ a = b.



(** A float that is not the negative zero. *)
Definition not_neg_zero (x : float) : Prop := Prim2SF x ≠ S754_zero true.

(** The sign of a float: what rounding a non-negative mantissa returns. *)
Definition SFsigned (sx : bool) (x : spec_float) : Prop :=
  match x with
  | S754_zero s | S754_infinity s | S754_finite s _ _ => s = sx
  | S754_nan => False
  end.

Definition SFnonneg (x : spec_float) : Prop :=
  match x with
  | S754_zero _ | S754_infinity false | S754_finite false _ _ => True
  | _ => False
  end.

(** The real number that a finite float stands for; 0 for the
    infinities and NaN. *)
Definition SF_value (x : spec_float) : Q :=
  match x with
  | S754_finite s m e => (if s then -1 else 1) * inject_Z (Z.pos m) * 2 ^ e
  | _ => 0
  end%Q.

Definition float_value (x : float) : Qc := Q2Qc (SF_value (Prim2SF x)).


(** No term of the index has an empty posting list. *)
Definition no_empty_postings {W} (idx : Index W) : Prop :=
  ∀ t p, idx !! t = Some p → p ≠ ∅.

(** Every weight of the index is a non-negative number, as the weights
    that the builder and the merge write are. *)
Definition weights_nonneg (idx : Index float) : Prop :=
  ∀ t d w, posting idx t d = Some w → (0 <=? w)%float = true.


(** ** The run without its flushes *)

Section Unsegmented.
Context `{Weight W}.
Variable stem : string → string.
Variable load_json : string → option (gmap string string).
Variable html_extract : string → option (string * string).

(** The loop of [process_all_documents] with the flush left out: every
    document of the walk is added to one index that stays in memory. *)
Definition ingest_unsegmented (walk_files : list (string * string))
    (st : ingest_state W) : ingest_state W :=
  foldl (λ st '(root, file),
           default st (add_document stem load_json html_extract root file st))
        st walk_files.

Definition index_unsegmented (walk : list (string * list string)) : Index W :=
  inverted_index (ingest_unsegmented (walk_files walk) (start_state ∅ ∅ ∅)).
End Unsegmented.

(** The segments written so far and the index in memory hold every pair
    of [idx], each in one place and with its weight. *)
Definition segments_cover `{Weight W} (st : ingest_state W) (idx : Index W) : Prop :=
  ∃ segs, Forall2 (λ f seg, disk st !! f = Some seg) (partial_files st) segs
          ∧ ∀ t d, (length (pair_weights (segs ++ [inverted_index st]) t d) ≤ 1)%nat
                   ∧ posting idx t d
                     = head (pair_weights (segs ++ [inverted_index st]) t d).

(** Every DocID of the index is among [paths]. *)
Definition docs_among {W} (idx : Index W) (paths : list string) : Prop :=
  ∀ t d w, posting idx t d = Some w → d ∈ paths.

(** Adding a weight of the index to zero gives the weight. *)
Definition zero_stable `{Weight W} (idx : Index W) : Prop :=
  ∀ t d w, posting idx t d = Some w → w_add w_zero w = w.

(** The paths of the files of a list that the loop takes as documents. *)
Definition document_paths (load_json : string → option (gmap string string))
    (files : list (string * string)) : list string :=
  (λ root_file, path_join root_file.1 root_file.2)
    <$> filter (is_document load_json) files.

(** ** Inputs for the examples *)

(** A reader for which one file cannot be read and every other file
    holds the same page. *)
Definition example_load_json (path : string) : option (gmap string string) :=
  if decide (path = "/DEV/bad.json") then None
  else Some {["content" := "<b>dog</b>"; "url" := "http://dog"]}.

(** An extractor that always raises. *)
Definition example_extract_fails (html : string) : option (string * string) := None.

(** ** Evaluation *)

(** Closed goals over [Qc] are settled by evaluation; two canonical
    rationals are equal when their fractions are. *)
Ltac qc_compute :=
  vm_compute;
  first [ reflexivity | repeat f_equal; apply Qc_is_canon; reflexivity ].


(** * Properties *)

(** ** The normalizer *)

Section NormalizerFacts.
Variable stem : string → string.

Lemma tokenize_and_normalize_fmap text :
  tokenize_and_normalize stem text = stem <$> findall_words (lower text).
Proof.
  unfold tokenize_and_normalize.
  generalize (findall_words (lower text)); intros l.
  enough (∀ acc, foldl (λ stemmed_tokens token, stemmed_tokens ++ [stem token]) acc l
                 = acc ++ (stem <$> l)) as H by apply (H []).
  induction l as [|x l IH]; intros acc; simpl.
  - by rewrite app_nil_r.
  - by rewrite IH, <- app_assoc.
Qed.

Lemma lower_app s1 s2 : lower (s1 +:+ s2) = lower s1 +:+ lower s2.
Proof. induction s1 as [|c s1 IH]; simpl; [done | by rewrite IH]. Qed.

Lemma findall_words_from_space cur s1 s2 :
  findall_words_from cur (s1 +:+ " " +:+ s2)
  = findall_words_from cur s1 ++ findall_words s2.
Proof.
  revert cur. induction s1 as [|c s1 IH]; intros cur; simpl.
  - done.
  - destruct (is_word_char c).
    + apply IH.
    + rewrite IH, app_assoc. done.
Qed.

(** A query extended with a space and more text has the tokens of both. *)
Lemma tokenize_and_normalize_space q t :
  tokenize_and_normalize stem (q +:+ " " +:+ t)
  = tokenize_and_normalize stem q ++ tokenize_and_normalize stem t.
Proof.
  rewrite !tokenize_and_normalize_fmap, !lower_app. simpl lower at 2.
  change (String (lower_char " ") "") with " ".
  unfold findall_words at 1. rewrite findall_words_from_space.
  by rewrite fmap_app.
Qed.
End NormalizerFacts.

(** ** Term counting *)

Lemma tf_get_incr t token tf :
  tf_get t (tf_incr token tf) = if decide (t = token) then tf_get t tf + 1 else tf_get t tf.
Proof.
  induction tf as [|[t' n] tf IH]; simpl.
  - repeat case_decide; congruence.
  - destruct (decide (t' = token)) as [->|Hne]; simpl.
    + repeat case_decide; congruence.
    + rewrite IH. repeat case_decide; congruence.
Qed.

Lemma tf_incr_keys token tf :
  (tf_incr token tf).*1 = if decide (token ∈ tf.*1) then tf.*1 else tf.*1 ++ [token].
Proof.
  induction tf as [|[t' n] tf IH]; csimpl.
  - destruct (decide (token ∈ [])) as [H|]; [by apply elem_of_nil in H|done].
  - destruct (decide (t' = token)) as [->|Hne]; csimpl.
    + rewrite decide_True by left. done.
    + rewrite IH. destruct (decide (token ∈ tf.*1)) as [Hin|Hnin].
      * rewrite decide_True by (by right). done.
      * rewrite decide_False; [done|]. rewrite elem_of_cons. naive_solver.
Qed.

Lemma count_terms_snoc tokens token :
  count_terms (tokens ++ [token]) = tf_incr token (count_terms tokens).
Proof. unfold count_terms. by rewrite foldl_app. Qed.

Lemma freq_of_snoc t tokens token :
  freq_of t (tokens ++ [token])
  = if decide (t = token) then freq_of t tokens + 1 else freq_of t tokens.
Proof.
  unfold freq_of. rewrite filter_app, length_app.
  rewrite filter_cons, filter_nil. repeat case_decide; simpl; try congruence; lia.
Qed.

Lemma tf_get_count_terms t tokens :
  tf_get t (count_terms tokens) = freq_of t tokens.
Proof.
  induction tokens as [|token tokens IH] using rev_ind; [done|].
  by rewrite count_terms_snoc, tf_get_incr, freq_of_snoc, IH.
Qed.

Lemma count_terms_keys t tokens : t ∈ (count_terms tokens).*1 ↔ t ∈ tokens.
Proof.
  induction tokens as [|token tokens IH] using rev_ind; [done|].
  rewrite count_terms_snoc, tf_incr_keys, elem_of_app, list_elem_of_singleton.
  case_decide; [|rewrite elem_of_app, list_elem_of_singleton]; naive_solver.
Qed.

Lemma count_terms_NoDup tokens : NoDup (count_terms tokens).*1.
Proof.
  induction tokens as [|token tokens IH] using rev_ind; [constructor|].
  rewrite count_terms_snoc, tf_incr_keys. case_decide; [done|].
  apply NoDup_app. split_and!; [done| |apply NoDup_singleton].
  intros x Hx ->%list_elem_of_singleton. done.
Qed.

Lemma tf_get_elem t n tf : NoDup tf.*1 → (t, n) ∈ tf → tf_get t tf = n.
Proof.
  induction tf as [|[t' n'] tf IH]; simpl; intros Hnd Hin.
  - by apply elem_of_nil in Hin.
  - apply NoDup_cons in Hnd as [Hnin Hnd]. apply elem_of_cons in Hin as [Heq|Hin].
    + injection Heq as -> ->. by rewrite decide_True.
    + rewrite decide_False; [by apply IH|].
      intros ->. apply Hnin, list_elem_of_fmap. by exists (t, n).
Qed.

Lemma count_terms_elem t n tokens :
  (t, n) ∈ count_terms tokens ↔ t ∈ tokens ∧ n = freq_of t tokens.
Proof.
  split.
  - intros Hin. split.
    + apply count_terms_keys, list_elem_of_fmap. by exists (t, n).
    + rewrite <- tf_get_count_terms. symmetry.
      by apply tf_get_elem; [apply count_terms_NoDup|].
  - intros [Hin ->]. apply count_terms_keys, list_elem_of_fmap in Hin as [[t' n'] [-> Hin]].
    simpl. rewrite <- tf_get_count_terms.
    by rewrite (tf_get_elem _ _ _ (count_terms_NoDup tokens) Hin).
Qed.

Lemma freq_of_pos t tokens : t ∈ tokens ↔ 0 < freq_of t tokens.
Proof.
  unfold freq_of. induction tokens as [|x tokens IH]; simpl.
  - split; [by intros ?%elem_of_nil | lia].
  - rewrite filter_cons, elem_of_cons. case_decide; simpl; [naive_solver lia|].
    rewrite <- IH. naive_solver.
Qed.

Lemma count_terms_nil tokens : count_terms tokens = [] ↔ tokens = [].
Proof.
  split; [|by intros ->].
  destruct tokens as [|x tokens]; [done|]. intros Heq.
  assert (x ∈ (count_terms (x :: tokens)).*1) as Hx by (apply count_terms_keys; left).
  rewrite Heq in Hx. by apply elem_of_nil in Hx.
Qed.

(** [max_values] is the largest of the values. *)
Lemma max_values_ge t n tf : (t, n) ∈ tf → n ≤ max_values tf.
Proof.
  unfold max_values. induction tf as [|[t' n'] tf IH]; csimpl.
  - by intros ?%elem_of_nil.
  - intros [Heq|Hin]%elem_of_cons.
    + injection Heq as -> ->. apply Nat.le_max_l.
    + etrans; [by apply IH | apply Nat.le_max_r].
Qed.

Lemma max_values_attained tf : tf ≠ [] → ∃ t, (t, max_values tf) ∈ tf.
Proof.
  unfold max_values. induction tf as [|[t n] tf IH]; [done|]. intros _. csimpl.
  destruct tf as [|p tf].
  - exists t. csimpl. rewrite Nat.max_0_r. left.
  - destruct IH as [t' Ht']; [done|].
    destruct (Nat.max_spec n (foldr Nat.max 0 ((p :: tf).*2))) as [[_ ->]|[_ ->]].
    + exists t'. by right.
    + exists t. left.
Qed.

(** ** Binary64 *)


Lemma SFleb_rank x y :
  x ≠ S754_nan → y ≠ S754_nan →
  SFleb x y = true ↔ rank_le (SFrank x) (SFrank y).
Proof.
  intros Hx Hy. unfold SFleb, rank_le, rank_lt.
  destruct x as [[]|[]| |[] mx ex], y as [[]|[]| |[] my ey]; try done;
    cbn [SFcompare SFrank fst snd];
    try (split; [intros; first [by right|left; lia]
                |intros [?|[=]]; try done; lia]).
  - destruct (Z.compare_spec ex ey);
      [|split; [intros; try done; left; lia|intros [?|[=]]; try done; lia]..].
    subst. fold (Pos.compare mx my). destruct (Pos.compare_spec mx my); simpl;
      (split; [intros; try done; first [by subst; right|left; lia]
              |intros [?|[=]]; try done; lia]).
  - destruct (Z.compare_spec ex ey);
      [|split; [intros; try done; left; lia|intros [?|[=]]; try done; lia]..].
    subst. fold (Pos.compare mx my). destruct (Pos.compare_spec mx my); simpl;
      (split; [intros; try done; first [by subst; right|left; lia]
              |intros [?|[=]]; try done; lia]).
Qed.





Lemma rank_lt_irrefl a : ¬ rank_lt a a.
Proof. unfold rank_lt. lia. Qed.

Lemma rank_lt_trans a b c : rank_lt a b → rank_lt b c → rank_lt a c.
Proof. unfold rank_lt. lia. Qed.

Lemma rank_trichotomy a b : rank_lt a b ∨ a = b ∨ rank_lt b a.
Proof.
  destruct a as [[a1 a2] a3], b as [[b1 b2] b3]. unfold rank_lt. simpl.
  destruct (Z.lt_trichotomy a1 b1) as [?|[->|?]]; [lia| |lia].
  destruct (Z.lt_trichotomy a2 b2) as [?|[->|?]]; [lia| |lia].
  destruct (Z.lt_trichotomy a3 b3) as [?|[->|?]]; [lia| |lia].
  by right; left.
Qed.

Lemma rank_le_not_lt a b : rank_le a b ↔ ¬ rank_lt b a.
Proof.
  unfold rank_le. split.
  - intros [Hlt| ->] Hba; [|by apply rank_lt_irrefl in Hba].
    by apply (rank_lt_irrefl a), (rank_lt_trans a b a).
  - intros Hn. destruct (rank_trichotomy a b) as [?|[?|?]]; by auto.
Qed.

#[global] Instance rank_le_refl : Reflexive rank_le.
Proof. intros a. by right. Qed.

#[global] Instance rank_le_trans : Transitive rank_le.
Proof.
  intros a b c [Hab| ->] [Hbc| ->]; [left|by left|by left|by right].
  by apply (rank_lt_trans a b c).
Qed.


(** *** The comparisons of binary64 *)






(** *** Addition of binary64 *)

Lemma SFadd_comm x y : SF64add x y = SF64add y x.
Proof.
  unfold SF64add, SFadd.
  destruct x as [[]|[]| |sx mx ex], y as [[]|[]| |sy my ey]; try done.
  by rewrite Z.add_comm, (Z.min_comm ex ey).
Qed.

Lemma float_add_comm (x y : float) : (x + y = y + x)%float.
Proof. apply Prim2SF_inj. by rewrite !add_spec, SFadd_comm. Qed.

Lemma float_add_zero_l (x : float) : not_neg_zero x → (0 + x = x)%float.
Proof.
  unfold not_neg_zero. intros Hx. apply Prim2SF_inj. rewrite add_spec.
  change (Prim2SF 0) with (S754_zero false). unfold SF64add, SFadd.
  by destruct (Prim2SF x) as [[]|[]| |sx mx ex].
Qed.

Lemma float_add_zero_not_neg_zero (x : float) : not_neg_zero (0 + x)%float.
Proof.
  unfold not_neg_zero. rewrite add_spec.
  change (Prim2SF 0) with (S754_zero false). unfold SF64add, SFadd.
  by destruct (Prim2SF x) as [[]|[]| |sx mx ex].
Qed.

Lemma float_add_zero_idemp (x : float) : (0 + (0 + x) = 0 + x)%float.
Proof. apply float_add_zero_l, float_add_zero_not_neg_zero. Qed.

(** With the zero that the accumulation starts from, two weights add up
    to the same float in both orders. *)
Lemma float_add_zero_swap (a b : float) : (0 + a + b = 0 + b + a)%float.
Proof.
  assert (∀ x y : float, (0 + x + y = 0 + x + (0 + y))%float) as Hnorm.
  { intros x y. apply Prim2SF_inj. rewrite !add_spec.
    change (Prim2SF 0) with (S754_zero false). unfold SF64add, SFadd.
    destruct (Prim2SF x) as [[]|[]| |sx mx ex], (Prim2SF y) as [[]|[]| |sy my ey];
      try done. }
  rewrite (Hnorm a b), (Hnorm b a). apply float_add_comm.
Qed.

(** *** Rounding never turns a sum of non-negative floats into NaN *)

Lemma shr_1_nonneg mrs : (0 ≤ shr_m mrs)%Z → (0 ≤ shr_m (shr_1 mrs))%Z.
Proof. destruct mrs as [[|[p|p|]|p] r s]; simpl; lia. Qed.

Lemma iter_pos_shr_1_nonneg p mrs :
  (0 ≤ shr_m mrs)%Z → (0 ≤ shr_m (SpecFloat.iter_pos shr_1 p mrs))%Z.
Proof.
  revert mrs. induction p as [p IH|p IH|]; intros mrs Hm; simpl.
  - by apply IH, IH, shr_1_nonneg.
  - by apply IH, IH.
  - by apply shr_1_nonneg.
Qed.

Lemma shr_fexp_nonneg m e l :
  (0 ≤ m)%Z → (0 ≤ shr_m (shr_fexp prec emax m e l).1)%Z.
Proof.
  intros Hm. unfold shr_fexp, shr.
  assert (shr_m (shr_record_of_loc m l) = m) as Hrec by (by destruct l as [|[]]).
  destruct (_ - e)%Z; simpl; rewrite ?Hrec; [done| |done].
  apply iter_pos_shr_1_nonneg. by rewrite Hrec.
Qed.

Lemma round_nearest_even_nonneg m l : (0 ≤ m)%Z → (0 ≤ round_nearest_even m l)%Z.
Proof. intros. unfold round_nearest_even. destruct l as [|[]]; try done; [|lia].
  destruct (Z.even m); lia. Qed.

Lemma binary_round_aux_signed sx mx ex lx :
  (0 ≤ mx)%Z → SFsigned sx (binary_round_aux prec emax sx mx ex lx).
Proof.
  intros Hm. unfold binary_round_aux.
  pose proof (shr_fexp_nonneg mx ex lx Hm) as H1.
  destruct (shr_fexp prec emax mx ex lx) as [mrs' e'] eqn:E1. simpl in H1.
  pose proof (shr_fexp_nonneg
                (round_nearest_even (shr_m mrs') (loc_of_shr_record mrs')) e' loc_Exact
                (round_nearest_even_nonneg _ _ H1)) as H2.
  destruct (shr_fexp prec emax (round_nearest_even _ _) e' loc_Exact) as [mrs'' e''].
  simpl in H2. destruct (shr_m mrs'') as [|p|p]; simpl; [done| |lia].
  by destruct (e'' <=? _)%Z.
Qed.

Lemma SFadd_nonneg x y : SFnonneg x → SFnonneg y → SFnonneg (SF64add x y).
Proof.
  unfold SF64add, SFadd.
  destruct x as [[]|[]| |[] mx ex], y as [[]|[]| |[] my ey]; try done.
  intros _ _. cbn [cond_Zopp].
  pose proof (Pos2Z.is_pos (shl_align mx ex (Z.min ex ey)).1).
  pose proof (Pos2Z.is_pos (shl_align my ey (Z.min ex ey)).1).
  destruct (Z.pos _ + Z.pos _)%Z as [|p|p] eqn:E; [done| |lia].
  unfold binary_normalize, binary_round.
  destruct (shl_align p _ _) as [mz ez].
  pose proof (binary_round_aux_signed false (Z.pos mz) ez loc_Exact ltac:(done)) as Hs.
  by destruct (binary_round_aux _ _ _ _ _ _) as [[]|[]| |[] ? ?].
Qed.

Lemma float_nonneg_spec (x : float) : (0 <=? x)%float = true ↔ SFnonneg (Prim2SF x).
Proof.
  rewrite FloatAxioms.leb_spec. change (Prim2SF 0) with (S754_zero false).
  unfold SFleb. by destruct (Prim2SF x) as [[]|[]| |[] mx ex].
Qed.

Lemma float_add_nonneg (x y : float) :
  (0 <=? x)%float = true → (0 <=? y)%float = true → (0 <=? x + y)%float = true.
Proof. rewrite !float_nonneg_spec, add_spec. apply SFadd_nonneg. Qed.


(** *** Rounding to binary64, in the range of the normal numbers *)

Local Open Scope Z_scope.

Lemma digits2_pos_size p : digits2_pos p = Pos.size p.
Proof. induction p as [p IH|p IH|]; simpl; congruence. Qed.

Lemma digits2_bounds p :
  2 ^ (Z.pos (digits2_pos p) - 1) ≤ Z.pos p < 2 ^ Z.pos (digits2_pos p).
Proof.
  rewrite digits2_pos_size.
  pose proof (Pos.size_gt p) as Hgt. pose proof (Pos.size_le p) as Hle.
  apply Pos2Z.pos_lt_pos in Hgt. apply Pos2Z.pos_le_pos in Hle.
  rewrite Pos2Z.inj_pow in Hgt, Hle.
  replace (Z.pos (Pos.size p)) with (Z.succ (Z.pos (Pos.size p) - 1)) in Hle at 1 by lia.
  rewrite Z.pow_succ_r in Hle by lia. lia.
Qed.

Lemma digits2_unique p k :
  2 ^ (k - 1) ≤ Z.pos p < 2 ^ k → Z.pos (digits2_pos p) = k.
Proof.
  intros [Hlo Hhi]. pose proof (digits2_bounds p) as [Hlo' Hhi'].
  set (d := Z.pos (digits2_pos p)) in *.
  destruct (Z.lt_trichotomy d k) as [Hlt|[?|Hlt]]; [|done|].
  - assert (2 ^ d ≤ 2 ^ (k - 1)) by (apply Z.pow_le_mono_r; lia). lia.
  - assert (0 ≤ k).
    { destruct (Z.le_gt_cases 0 k); [done|]. rewrite Z.pow_neg_r in Hhi by lia. lia. }
    assert (2 ^ k ≤ 2 ^ (d - 1)) by (apply Z.pow_le_mono_r; lia). lia.
Qed.

(** [n] steps of [shr_1] divide the mantissa by [2 ^ n]. *)
Lemma shr_1_m mrs : 0 ≤ shr_m mrs → shr_m (shr_1 mrs) = shr_m mrs / 2.
Proof.
  destruct mrs as [[|[p|p|]|p] r s]; simpl; intros Hm; try done; try lia.
  - change (Z.pos p~1) with (2 * Z.pos p + 1). apply Z.div_unique with 1; lia.
  - change (Z.pos p~0) with (2 * Z.pos p). apply Z.div_unique with 0; lia.
Qed.

Lemma iter_pos_shr_1_m p mrs :
  0 ≤ shr_m mrs → shr_m (SpecFloat.iter_pos shr_1 p mrs) = shr_m mrs / 2 ^ Z.pos p.
Proof.
  revert mrs. induction p as [p IH|p IH|]; intros mrs Hm; simpl.
  - rewrite IH, IH, shr_1_m by auto using shr_1_nonneg, iter_pos_shr_1_nonneg.
    rewrite !Z.div_div by lia. f_equal. change (Z.pos p~1) with (2 * Z.pos p + 1).
    replace (2 * Z.pos p + 1) with (Z.succ (Z.pos p + Z.pos p)) by lia.
    rewrite Z.pow_succ_r, Z.pow_add_r by lia. ring.
  - rewrite IH, IH by auto using iter_pos_shr_1_nonneg.
    rewrite Z.div_div by lia. f_equal. change (Z.pos p~0) with (2 * Z.pos p).
    replace (2 * Z.pos p) with (Z.pos p + Z.pos p) by lia.
    rewrite Z.pow_add_r by lia. ring.
  - by rewrite shr_1_m.
Qed.

(** When the bits shifted out are zero, nothing is lost. *)
Lemma shr_1_exact c :
  0 ≤ c →
  shr_1 {| shr_m := 2 * c; shr_r := false; shr_s := false |}
  = {| shr_m := c; shr_r := false; shr_s := false |}.
Proof. destruct c as [|q|q]; [done|done|lia]. Qed.

Lemma iter_pos_shr_1_exact p c :
  0 ≤ c →
  SpecFloat.iter_pos shr_1 p
    {| shr_m := c * 2 ^ Z.pos p; shr_r := false; shr_s := false |}
  = {| shr_m := c; shr_r := false; shr_s := false |}.
Proof.
  revert c. induction p as [p IH|p IH|]; intros c Hc; cbn [SpecFloat.iter_pos].
  - replace (c * 2 ^ Z.pos p~1) with (2 * (c * 2 ^ Z.pos p * 2 ^ Z.pos p)).
    2:{ change (Z.pos p~1) with (2 * Z.pos p + 1).
        replace (2 * Z.pos p + 1) with (Z.succ (Z.pos p + Z.pos p)) by lia.
        rewrite Z.pow_succ_r, Z.pow_add_r by lia. ring. }
    assert (0 ≤ c * 2 ^ Z.pos p) by (apply Z.mul_nonneg_nonneg; lia).
    rewrite shr_1_exact by (apply Z.mul_nonneg_nonneg; lia).
    by rewrite IH, IH.
  - replace (c * 2 ^ Z.pos p~0) with (c * 2 ^ Z.pos p * 2 ^ Z.pos p).
    2:{ change (Z.pos p~0) with (2 * Z.pos p).
        replace (2 * Z.pos p) with (Z.pos p + Z.pos p) by lia.
        rewrite Z.pow_add_r by lia. ring. }
    assert (0 ≤ c * 2 ^ Z.pos p) by (apply Z.mul_nonneg_nonneg; lia).
    by rewrite IH, IH.
  - replace (c * 2 ^ 1) with (2 * c) by lia. by apply shr_1_exact.
Qed.

Lemma fexp_normal e : -1074 ≤ e - 53 → fexp prec emax e = e - 53.
Proof. unfold fexp, SpecFloat.emin, prec, emax. lia. Qed.

Lemma pow2_split (d : Z) k : k ≤ d → 0 ≤ k → 2 ^ d = 2 ^ k * 2 ^ (d - k).
Proof. intros. rewrite <- Z.pow_add_r by lia. f_equal. lia. Qed.

Lemma loc_of_shr_record_of_loc m l : loc_of_shr_record (shr_record_of_loc m l) = l.
Proof. by destruct l as [|[]]. Qed.

Lemma shr_m_record_of_loc m l : shr_m (shr_record_of_loc m l) = m.
Proof. by destruct l as [|[]]. Qed.

(** The first shift of a mantissa of at least 53 bits keeps its 53
    leading bits. *)
Lemma shr_fexp_normal (mx : positive) ex lx :
  let d := Z.pos (digits2_pos mx) in
  -1074 ≤ d + ex - 53 → 53 ≤ d →
  ∃ mrs, shr_fexp prec emax (Z.pos mx) ex lx = (mrs, d + ex - 53)
    ∧ shr_m mrs = Z.pos mx / 2 ^ (d - 53)
    ∧ 2 ^ 52 ≤ shr_m mrs < 2 ^ 53
    ∧ (lx = loc_Exact → Z.pos mx mod 2 ^ (d - 53) = 0 →
       loc_of_shr_record mrs = loc_Exact).
Proof.
  intros d Hrange Hd. pose proof (digits2_bounds mx) as [Hlo Hhi]. fold d in Hlo, Hhi.
  assert (2 ^ 52 ≤ Z.pos mx / 2 ^ (d - 53) < 2 ^ 53) as Hquot.
  { assert (0 < 2 ^ (d - 53)) by (apply Z.pow_pos_nonneg; lia). split.
    - apply Z.div_le_lower_bound; [done|].
      rewrite (pow2_split (d - 1) 52) in Hlo by lia.
      replace (d - 1 - 52) with (d - 53) in Hlo by lia. lia.
    - apply Z.div_lt_upper_bound; [done|].
      rewrite (pow2_split d 53) in Hhi by lia. lia. }
  unfold shr_fexp. change (Zdigits2 (Z.pos mx)) with d.
  rewrite fexp_normal by done. unfold shr.
  destruct (d + ex - 53 - ex) as [|n|n] eqn:En; [| |lia].
  - assert (d = 53) as Hd53 by lia. rewrite Hd53 in *.
    change (2 ^ (53 - 53)) with 1 in *. rewrite Z.div_1_r in *.
    eexists. split; [f_equal; lia|]. rewrite shr_m_record_of_loc.
    split; [done|]. split; [done|]. intros -> _. done.
  - assert (d - 53 = Z.pos n) as Hn by lia. rewrite Hn in *.
    eexists. split; [f_equal; lia|].
    rewrite iter_pos_shr_1_m, shr_m_record_of_loc by (by rewrite shr_m_record_of_loc).
    split; [done|]. split; [done|]. intros -> Hmod. simpl.
    rewrite (Z.div_mod (Z.pos mx) (2 ^ Z.pos n)) at 1 by lia.
    rewrite Hmod, Z.add_0_r, Z.mul_comm, iter_pos_shr_1_exact by lia. done.
Qed.

Lemma round_nearest_even_cases m l :
  round_nearest_even m l = m ∨ round_nearest_even m l = m + 1.
Proof.
  unfold round_nearest_even. destruct l as [|[]]; auto. destruct (Z.even m); auto.
Qed.

(** Rounding a mantissa of at least 53 bits in the normal range: the
    result is finite, holds the 53 leading bits or their successor, and
    is exact when the bits dropped are zero. *)
Lemma binary_round_aux_normal sx (mx : positive) ex lx :
  let d := Z.pos (digits2_pos mx) in
  -1074 ≤ d + ex - 53 → 53 ≤ d → d + ex ≤ 1023 →
  ∃ m e, binary_round_aux prec emax sx (Z.pos mx) ex lx = S754_finite sx m e
    ∧ ((e = d + ex - 53 ∧ 2 ^ 52 ≤ Z.pos m < 2 ^ 53
        ∧ Z.pos mx / 2 ^ (d - 53) ≤ Z.pos m)
       ∨ (e = d + ex - 52 ∧ Z.pos m = 2 ^ 52))
    ∧ (lx = loc_Exact → Z.pos mx mod 2 ^ (d - 53) = 0 →
       e = d + ex - 53 ∧ Z.pos m = Z.pos mx / 2 ^ (d - 53)).
Proof.
  intros d Hrange Hd Hmax. unfold binary_round_aux.
  destruct (shr_fexp_normal mx ex lx Hrange Hd) as (mrs & -> & Hm & Hb & Hex).
  fold d in Hm, Hex |- *.
  set (m1 := round_nearest_even (shr_m mrs) (loc_of_shr_record mrs)).
  assert (m1 = shr_m mrs ∨ m1 = shr_m mrs + 1) as Hm1
    by apply round_nearest_even_cases.
  assert (2 ^ 52 ≤ m1 ≤ 2 ^ 53) as Hb1 by lia.
  destruct m1 as [|p1|p1] eqn:Ep1; [lia| |lia].
  destruct (decide (Z.pos p1 < 2 ^ 53)) as [Hlt|Hge].
  - assert (Z.pos (digits2_pos p1) = 53) as Hd1 by (apply digits2_unique; lia).
    destruct (shr_fexp_normal p1 (d + ex - 53) loc_Exact) as (mrs2 & -> & Hm2 & Hb2 & _);
      [lia..|].
    rewrite Hd1 in Hm2. change (2 ^ (53 - 53)) with 1 in Hm2. rewrite Z.div_1_r in Hm2.
    rewrite Hm2. rewrite Hd1.
    replace (53 + (d + ex - 53) - 53 <=? emax - prec) with true
      by (symmetry; apply Z.leb_le; unfold emax, prec; lia).
    exists p1, (53 + (d + ex - 53) - 53). split; [done|]. split.
    + left. split; [lia|]. split; [lia|]. lia.
    + intros Hl Hmod. split; [lia|]. specialize (Hex Hl Hmod).
      subst m1. rewrite Hex in Ep1. simpl in Ep1. lia.
  - assert (Z.pos p1 = 2 ^ 53) as Hp1 by lia.
    assert (Z.pos (digits2_pos p1) = 54) as Hd1
      by (apply digits2_unique; rewrite Hp1; done).
    destruct (shr_fexp_normal p1 (d + ex - 53) loc_Exact) as (mrs2 & -> & Hm2 & Hb2 & _);
      [lia..|].
    rewrite Hd1, Hp1 in Hm2. change (2 ^ 53 / 2 ^ (54 - 53)) with (2 ^ 52) in Hm2.
    rewrite Hm2, Hd1. change (2 ^ 52) with (Z.pos 4503599627370496).
    replace (54 + (d + ex - 53) - 53 <=? emax - prec) with true
      by (symmetry; apply Z.leb_le; unfold emax, prec; lia).
    exists 4503599627370496%positive, (54 + (d + ex - 53) - 53).
    split; [done|]. split.
    + right. split; [lia|done].
    + intros Hl Hmod. specialize (Hex Hl Hmod).
      subst m1. rewrite Hex in Ep1. simpl in Ep1. lia.
Qed.

(** *** The operations on positive normal numbers *)

(** Multiplying by a power of two moves the exponent. *)
Lemma SFmul_pow2 (m : positive) e k :
  2 ^ 52 ≤ Z.pos m < 2 ^ 53 → -1074 ≤ e + k + 52 → e + k + 52 ≤ 970 →
  SF64mul (S754_finite false 4503599627370496 k) (S754_finite false m e)
  = S754_finite false m (e + k + 52).
Proof.
  intros Hm Hlo Hhi. unfold SF64mul, SFmul. cbn [xorb].
  assert (Z.pos (4503599627370496 * m) = 2 ^ 52 * Z.pos m) as Hprod
    by (by rewrite Pos2Z.inj_mul).
  assert (Z.pos (digits2_pos (4503599627370496 * m)) = 105) as Hd.
  { apply digits2_unique. rewrite Hprod.
    change (2 ^ (105 - 1)) with (2 ^ 52 * 2 ^ 52).
    change (2 ^ 105) with (2 ^ 52 * 2 ^ 53). lia. }
  destruct (binary_round_aux_normal false (4503599627370496 * m) (k + e) loc_Exact)
    as (m' & e' & -> & _ & Hex); [rewrite Hd; lia..|].
  rewrite Hd in Hex. destruct Hex as [-> Hm']; [done| |].
  - rewrite Hprod. change (2 ^ (105 - 53)) with (2 ^ 52).
    rewrite Z.mul_comm. by apply Z.mod_mul.
  - rewrite Hprod in Hm'. change (2 ^ (105 - 53)) with (2 ^ 52) in Hm'.
    rewrite Z.mul_comm, Z.div_mul in Hm' by done.
    injection Hm' as ->. f_equal. lia.
Qed.

Lemma Pos_iter_xO (m d : positive) : Z.pos (Pos.iter xO m d) = Z.pos m * 2 ^ Z.pos d.
Proof.
  revert m. induction d as [d IH|d IH|]; intros m; simpl.
  - rewrite Pos2Z.inj_xO, IH, IH. change (Z.pos d~1) with (2 * Z.pos d + 1).
    replace (2 * Z.pos d + 1) with (Z.succ (Z.pos d + Z.pos d)) by lia.
    rewrite Z.pow_succ_r, Z.pow_add_r by lia. ring.
  - rewrite IH, IH. change (Z.pos d~0) with (2 * Z.pos d).
    replace (2 * Z.pos d) with (Z.pos d + Z.pos d) by lia.
    rewrite Z.pow_add_r by lia. ring.
  - lia.
Qed.

Lemma shl_align_fst m e ez :
  ez ≤ e → Z.pos (shl_align m e ez).1 = Z.pos m * 2 ^ (e - ez).
Proof.
  intros Hle. unfold shl_align. destruct (ez - e) as [|d|d] eqn:Ed; [|lia|].
  - replace (e - ez) with 0 by lia. simpl. lia.
  - simpl. rewrite Pos_iter_xO. f_equal. f_equal. lia.
Qed.

(** The sum of two positive numbers whose exact sum has more than 53
    bits is that sum, rounded. *)
Lemma SFadd_pos_normal m1 e1 m2 e2 (M : positive) :
  let ez := Z.min e1 e2 in
  Z.pos M = Z.pos m1 * 2 ^ (e1 - ez) + Z.pos m2 * 2 ^ (e2 - ez) →
  54 ≤ Z.pos (digits2_pos M) → -1074 ≤ Z.pos (digits2_pos M) + ez - 53 →
  SF64add (S754_finite false m1 e1) (S754_finite false m2 e2)
  = binary_round_aux prec emax false (Z.pos M) ez loc_Exact.
Proof.
  intros ez HM Hd Hrange. unfold SF64add, SFadd. fold ez. cbn [cond_Zopp].
  replace (Z.pos (shl_align m1 e1 ez).1 + Z.pos (shl_align m2 e2 ez).1) with (Z.pos M)
    by (rewrite !shl_align_fst by lia; done).
  cbn [binary_normalize]. unfold binary_round.
  rewrite fexp_normal by done. unfold shl_align.
  destruct (Z.pos (digits2_pos M) + ez - 53 - ez) as [|d|d] eqn:Ed; [lia|done|lia].
Qed.

(** The quotient of two positive normal numbers. *)
Lemma SFdiv_normal m1 e1 m2 e2 :
  2 ^ 52 ≤ Z.pos m1 < 2 ^ 53 → 2 ^ 52 ≤ Z.pos m2 < 2 ^ 53 →
  -1074 ≤ e1 - e2 - 53 →
  SF64div (S754_finite false m1 e1) (S754_finite false m2 e2)
  = binary_round_aux prec emax false (Z.pos m1 * 2 ^ 53 / Z.pos m2) (e1 - e2 - 53)
      (new_location (Z.pos m2) (Z.pos m1 * 2 ^ 53 mod Z.pos m2)).
Proof.
  intros Hm1 Hm2 Hrange. unfold SF64div, SFdiv, SFdiv_core_binary. cbn [xorb].
  change (Zdigits2 (Z.pos m1)) with (Z.pos (digits2_pos m1)).
  change (Zdigits2 (Z.pos m2)) with (Z.pos (digits2_pos m2)).
  rewrite (digits2_unique m1 53), (digits2_unique m2 53) by done.
  replace (53 + e1 - (53 + e2)) with (e1 - e2) by lia.
  rewrite fexp_normal by done.
  replace (Z.min (e1 - e2 - 53) (e1 - e2)) with (e1 - e2 - 53) by lia.
  replace (e1 - e2 - (e1 - e2 - 53)) with 53 by lia.
  rewrite Z.shiftl_mul_pow2 by done.
  unfold Z.div, Z.modulo. by destruct (Z.div_eucl _ _) as [q r].
Qed.

(** In the normal range the mantissa of the result does not depend on
    the exponent of the input. *)
Lemma shr_fexp_shift (mx : positive) ex ex' lx :
  let d := Z.pos (digits2_pos mx) in
  -1074 ≤ d + ex - 53 → -1074 ≤ d + ex' - 53 →
  (shr_fexp prec emax (Z.pos mx) ex lx).1 = (shr_fexp prec emax (Z.pos mx) ex' lx).1.
Proof.
  intros d Hex Hex'. unfold shr_fexp. change (Zdigits2 (Z.pos mx)) with d.
  rewrite !fexp_normal by done.
  replace (d + ex - 53 - ex) with (d - 53) by lia.
  replace (d + ex' - 53 - ex') with (d - 53) by lia.
  unfold shr. by destruct (d - 53).
Qed.

Lemma binary_round_aux_shift sx (mx : positive) ex lx k :
  let d := Z.pos (digits2_pos mx) in
  -1074 ≤ d + ex - 53 → -1074 ≤ d + (ex + k) - 53 → 53 ≤ d →
  d + ex ≤ 1023 → d + (ex + k) ≤ 1023 →
  ∃ m e, binary_round_aux prec emax sx (Z.pos mx) ex lx = S754_finite sx m e
         ∧ binary_round_aux prec emax sx (Z.pos mx) (ex + k) lx
           = S754_finite sx m (e + k)
         ∧ 2 ^ 52 ≤ Z.pos m < 2 ^ 53 ∧ d + ex - 53 ≤ e ≤ d + ex - 52.
Proof.
  intros d Hr Hr' Hd Hmax Hmax'. unfold binary_round_aux.
  pose proof (shr_fexp_shift mx ex (ex + k) lx Hr Hr') as Hsame.
  destruct (shr_fexp_normal mx ex lx Hr Hd) as (mrs & E1 & Hm & Hb & _).
  destruct (shr_fexp_normal mx (ex + k) lx Hr' Hd) as (mrs' & E1' & _).
  rewrite E1, E1' in Hsame |- *. cbn [fst] in Hsame. subst mrs'. fold d.
  set (m1 := round_nearest_even (shr_m mrs) (loc_of_shr_record mrs)).
  assert (m1 = shr_m mrs ∨ m1 = shr_m mrs + 1) as Hm1
    by apply round_nearest_even_cases.
  assert (2 ^ 52 ≤ m1 ≤ 2 ^ 53) as Hb1 by lia.
  destruct m1 as [|p1|p1] eqn:Ep1; [lia| |lia].
  assert (53 ≤ Z.pos (digits2_pos p1) ≤ 54) as Hd1.
  { destruct (decide (Z.pos p1 < 2 ^ 53)).
    - rewrite (digits2_unique p1 53); lia.
    - rewrite (digits2_unique p1 54); [lia|]. change (2 ^ (54 - 1)) with (2 ^ 53).
      change (2 ^ 54) with (2 * 2 ^ 53). lia. }
  pose proof (shr_fexp_shift p1 (d + ex - 53) (d + (ex + k) - 53) loc_Exact
                ltac:(lia) ltac:(lia)) as Hsame2.
  destruct (shr_fexp_normal p1 (d + ex - 53) loc_Exact) as (mrs2 & E2 & Hm2 & Hb2 & _);
    [lia..|].
  destruct (shr_fexp_normal p1 (d + (ex + k) - 53) loc_Exact) as (mrs2' & E2' & _);
    [lia..|].
  rewrite E2, E2' in Hsame2 |- *. cbn [fst] in Hsame2. subst mrs2'.
  destruct (shr_m mrs2) as [|m|m] eqn:Em; [lia| |lia].
  replace (Z.pos (digits2_pos p1) + (d + ex - 53) - 53 <=? emax - prec) with true
    by (symmetry; apply Z.leb_le; unfold emax, prec; lia).
  replace (Z.pos (digits2_pos p1) + (d + (ex + k) - 53) - 53 <=? emax - prec) with true
    by (symmetry; apply Z.leb_le; unfold emax, prec; lia).
  exists m, (Z.pos (digits2_pos p1) + (d + ex - 53) - 53).
  split; [done|]. split; [f_equal; lia|]. split; [done|lia].
Qed.

Local Close Scope Z_scope.

(** ** The weight before the boost, with the floats of the code *)

Local Open Scope Z_scope.

Lemma normal_mantissa_bounds (p : positive) :
  Z.pos (digits2_pos p) ≤ 53 →
  2 ^ 52 ≤ Z.pos p * 2 ^ (53 - Z.pos (digits2_pos p)) < 2 ^ 53.
Proof.
  intros Hd. pose proof (digits2_bounds p) as [Hlo Hhi].
  set (d := Z.pos (digits2_pos p)) in *.
  assert (0 < 2 ^ (53 - d)) by (apply Z.pow_pos_nonneg; lia).
  assert (2 ^ 52 = 2 ^ (d - 1) * 2 ^ (53 - d)) as ->.
  { rewrite <- Z.pow_add_r by lia. f_equal. lia. }
  assert (2 ^ 53 = 2 ^ d * 2 ^ (53 - d)) as ->.
  { rewrite <- Z.pow_add_r by lia. f_equal. lia. }
  split; [apply Z.mul_le_mono_nonneg_r; lia|apply Z.mul_lt_mono_pos_r; lia].
Qed.

(** A positive integer below [2 ^ 53] is taken into binary64 exactly. *)
Lemma Prim2SF_float_of_positive p :
  Z.pos (digits2_pos p) ≤ 53 →
  ∃ m, Prim2SF (float_of_positive p)
       = S754_finite false m (Z.pos (digits2_pos p) - 53)
       ∧ Z.pos m = Z.pos p * 2 ^ (53 - Z.pos (digits2_pos p)).
Proof.
  induction p as [p IH|p IH|]; intros Hd.
  - (* 2 * F p + 1 *)
    cbn [digits2_pos] in Hd |- *. rewrite Pos2Z.inj_succ in Hd |- *.
    set (d := Z.pos (digits2_pos p)) in *.
    destruct IH as (m & Hm & Hval); [lia|].
    pose proof (normal_mantissa_bounds p ltac:(fold d; lia)) as Hmb.
    fold d in Hmb. rewrite <- Hval in Hmb.
    cbn [float_of_positive]. rewrite add_spec, mul_spec, Hm.
    change (Prim2SF 2) with (S754_finite false 4503599627370496 (-51)).
    change (Prim2SF 1) with (S754_finite false 4503599627370496 (-52)).
    rewrite SFmul_pow2 by lia.
    replace (d - 53 + -51 + 52) with (d - 52) by lia.
    assert (0 < 2 ^ d) as Hpd by (apply Z.pow_pos_nonneg; unfold d; lia).
    assert (0 < 2 ^ (52 - d)) as Hpd' by (apply Z.pow_pos_nonneg; lia).
    assert (2 ^ (53 - d) = 2 * 2 ^ (52 - d)) as H53.
    { rewrite <- Z.pow_succ_r by lia. f_equal. lia. }
    assert (2 ^ 52 = 2 ^ (52 - d) * 2 ^ d) as H52.
    { rewrite <- Z.pow_add_r by (unfold d; lia). f_equal. lia. }
    set (c := Z.pos m + 2 ^ (52 - d)).
    set (M := Z.to_pos (c * 2 ^ d)).
    assert (Z.pos M = c * 2 ^ d) as HM by (unfold M; rewrite Z2Pos.id; [done|nia]).
    assert (Z.pos (digits2_pos M) = d + 53) as HdM.
    { apply digits2_unique. rewrite HM.
      assert (2 ^ (d + 53 - 1) = 2 ^ 52 * 2 ^ d) as ->.
      { rewrite <- Z.pow_add_r by (unfold d; lia). f_equal. lia. }
      assert (2 ^ (d + 53) = 2 ^ 53 * 2 ^ d) as ->.
      { rewrite <- Z.pow_add_r by (unfold d; lia). f_equal. lia. }
      unfold c. split.
      - apply Z.mul_le_mono_nonneg_r; lia.
      - apply Z.mul_lt_mono_pos_r; [done|]. nia. }
    rewrite (SFadd_pos_normal _ _ _ _ M).
    + replace (Z.min (d - 52) (-52)) with (-52) by (unfold d; lia).
      destruct (binary_round_aux_normal false M (-52) loc_Exact)
        as (m' & e' & -> & _ & Hex); [rewrite HdM; unfold d; lia..|].
      rewrite HdM in Hex. replace (d + 53 - 53) with d in Hex by lia.
      destruct Hex as [-> Hm']; [done|rewrite HM; by apply Z.mod_mul; lia|].
      rewrite HM, Z.div_mul in Hm' by lia.
      exists m'. split; [f_equal; lia|]. rewrite Hm'. unfold c.
      replace (53 - Z.succ d) with (52 - d) by lia.
      rewrite Hval, H53. change (Z.pos p~1) with (2 * Z.pos p + 1). ring.
    + replace (Z.min (d - 52) (-52)) with (-52) by (unfold d; lia).
      rewrite HM. unfold c. replace (d - 52 - -52) with d by lia.
      replace (-52 - -52) with 0 by lia. change (2 ^ 0) with 1.
      change (Z.pos 4503599627370496) with (2 ^ 52). rewrite H52. ring.
    + rewrite HdM. unfold d. lia.
    + rewrite HdM. unfold d. lia.
  - (* 2 * F p *)
    cbn [digits2_pos] in Hd |- *. rewrite Pos2Z.inj_succ in Hd |- *.
    set (d := Z.pos (digits2_pos p)) in *.
    destruct IH as (m & Hm & Hval); [lia|].
    pose proof (normal_mantissa_bounds p ltac:(fold d; lia)) as Hmb.
    fold d in Hmb. rewrite <- Hval in Hmb.
    cbn [float_of_positive]. rewrite mul_spec, Hm.
    change (Prim2SF 2) with (S754_finite false 4503599627370496 (-51)).
    rewrite SFmul_pow2 by (unfold d; lia).
    exists m. split; [f_equal; lia|]. rewrite Hval.
    assert (2 ^ (53 - d) = 2 * 2 ^ (53 - Z.succ d)) as ->.
    { rewrite <- Z.pow_succ_r by lia. f_equal. lia. }
    change (Z.pos p~0) with (2 * Z.pos p). ring.
  - exists 4503599627370496%positive. split; reflexivity.
Qed.

Lemma float_of_nat_normal n :
  (1 ≤ n)%nat → Z.of_nat n < 2 ^ 53 →
  ∃ m e, Prim2SF (float_of_nat n) = S754_finite false m e
         ∧ 2 ^ 52 ≤ Z.pos m < 2 ^ 53 ∧ -52 ≤ e ≤ 0
         ∧ Z.pos m = Z.of_nat n * 2 ^ (- e).
Proof.
  intros Hn Hlt. unfold float_of_nat.
  destruct (N.of_nat n) as [|p] eqn:Ep; [lia|].
  assert (Z.pos p = Z.of_nat n) as Hp by lia.
  pose proof (digits2_bounds p) as [Hlo Hhi].
  assert (Z.pos (digits2_pos p) ≤ 53) as Hd.
  { destruct (Z.le_gt_cases (Z.pos (digits2_pos p)) 53) as [?|Hgt]; [done|].
    assert (2 ^ 53 ≤ 2 ^ (Z.pos (digits2_pos p) - 1)) by (apply Z.pow_le_mono_r; lia).
    lia. }
  destruct (Prim2SF_float_of_positive p Hd) as (m & Hm & Hval).
  exists m, (Z.pos (digits2_pos p) - 53). split; [done|].
  pose proof (normal_mantissa_bounds p Hd) as Hmb. rewrite <- Hval in Hmb.
  split; [done|]. split; [lia|]. rewrite Hval, Hp. f_equal. f_equal. lia.
Qed.

(** The order of two integers is the order of their exponents, then of
    their mantissas. *)
Lemma normal_nat_le (n1 n2 : Z) (m1 m2 : positive) e1 e2 :
  n1 ≤ n2 → 0 < n1 →
  2 ^ 52 ≤ Z.pos m1 < 2 ^ 53 → 2 ^ 52 ≤ Z.pos m2 < 2 ^ 53 →
  e1 ≤ 0 → e2 ≤ 0 →
  Z.pos m1 = n1 * 2 ^ (- e1) → Z.pos m2 = n2 * 2 ^ (- e2) →
  e1 < e2 ∨ (e1 = e2 ∧ Z.pos m1 ≤ Z.pos m2).
Proof.
  intros Hle Hpos Hm1 Hm2 He1 He2 H1 H2.
  destruct (Z.lt_trichotomy e1 e2) as [?|[->|Hgt]]; [by left| |].
  - right. split; [done|]. rewrite H1, H2.
    apply Z.mul_le_mono_nonneg_r; [|done]. apply Z.pow_nonneg. lia.
  - exfalso.
    assert (2 ^ (- e2) = 2 ^ (- e1) * 2 ^ (e1 - e2)) as Hsplit.
    { rewrite <- Z.pow_add_r by lia. f_equal. lia. }
    assert (2 ≤ 2 ^ (e1 - e2)).
    { change 2 with (2 ^ 1) at 1. apply Z.pow_le_mono_r; lia. }
    assert (0 < 2 ^ (- e1)) by (apply Z.pow_pos_nonneg; lia).
    rewrite Hsplit in H2. nia.
Qed.

Lemma new_location_exact nb_steps : new_location nb_steps 0 = loc_Exact.
Proof.
  unfold new_location, new_location_even, new_location_odd.
  by destruct (Z.even nb_steps).
Qed.

(** [(0.5 * freq) / max_tf] is a positive number of at most 0.5. *)
Lemma half_ratio_binary64 (f mx : nat) :
  (1 ≤ f ≤ mx)%nat → Z.of_nat mx < 2 ^ 53 →
  ∃ m e, Prim2SF (PrimFloat.div (PrimFloat.mul 0.5 (float_of_nat f)) (float_of_nat mx))
         = S754_finite false m e
         ∧ 2 ^ 52 ≤ Z.pos m < 2 ^ 53 ∧ -200 ≤ e
         ∧ (e ≤ -54 ∨ (e = -53 ∧ Z.pos m = 2 ^ 52)).
Proof.
  intros [Hf Hfm] Hmx.
  destruct (float_of_nat_normal f) as (m1 & e1 & Hf1 & Hb1 & He1 & Hv1); [lia..|].
  destruct (float_of_nat_normal mx) as (m2 & e2 & Hf2 & Hb2 & He2 & Hv2); [lia..|].
  pose proof (normal_nat_le (Z.of_nat f) (Z.of_nat mx) m1 m2 e1 e2
                ltac:(lia) ltac:(lia) Hb1 Hb2 ltac:(lia) ltac:(lia) Hv1 Hv2) as Horder.
  rewrite div_spec, mul_spec, Hf1, Hf2.
  change (Prim2SF 0.5) with (S754_finite false 4503599627370496 (-53)).
  rewrite SFmul_pow2 by lia.
  rewrite SFdiv_normal by lia.
  set (q := Z.pos m1 * 2 ^ 53 / Z.pos m2).
  set (r := Z.pos m1 * 2 ^ 53 mod Z.pos m2).
  assert (2 ^ 52 ≤ q < 2 ^ 54) as Hq.
  { unfold q. split.
    - apply Z.div_le_lower_bound; lia.
    - apply Z.div_lt_upper_bound; lia. }
  destruct q as [|pq|pq] eqn:Eq; [lia| |lia].
  assert (53 ≤ Z.pos (digits2_pos pq) ≤ 54) as Hdq.
  { pose proof (digits2_bounds pq) as [Hlo Hhi].
    split.
    - destruct (Z.le_gt_cases 53 (Z.pos (digits2_pos pq))) as [?|Hgt]; [done|].
      assert (2 ^ Z.pos (digits2_pos pq) ≤ 2 ^ 52) by (apply Z.pow_le_mono_r; lia). lia.
    - destruct (Z.le_gt_cases (Z.pos (digits2_pos pq)) 54) as [?|Hgt]; [done|].
      assert (2 ^ 54 ≤ 2 ^ (Z.pos (digits2_pos pq) - 1)) by (apply Z.pow_le_mono_r; lia).
      lia. }
  destruct (binary_round_aux_normal false pq (e1 + -53 + 52 - e2 - 53)
              (new_location (Z.pos m2) r))
    as (m & e & -> & Hcases & Hex); [lia..|].
  exists m, e. split; [done|].
  destruct Horder as [Hlt|[-> Hm12]].
  - (* the exponent of [freq] is below that of [max_tf] *)
    destruct Hcases as [(-> & Hm & _)|[-> Hm]].
    + split; [done|]. split; [lia|]. left. lia.
    + split; [lia|]. split; [lia|].
      destruct (decide (Z.pos (digits2_pos pq) + (e1 + -53 + 52 - e2 - 53) - 52 = -53));
        [right; lia|left; lia].
  - destruct (decide (Z.pos m1 = Z.pos m2)) as [Heq|Hne].
    + (* [freq = max_tf]: the quotient is 0.5 *)
      assert (Z.pos pq = 2 ^ 53) as Hpq.
      { rewrite <- Eq. unfold q. rewrite Heq, Z.mul_comm. by apply Z.div_mul. }
      assert (r = 0) as Hr.
      { unfold r. rewrite Heq, Z.mul_comm. by apply Z.mod_mul. }
      assert (Z.pos (digits2_pos pq) = 54) as Hd54
        by (apply digits2_unique; rewrite Hpq; done).
      rewrite Hr, new_location_exact, Hd54, Hpq in Hex.
      destruct Hex as [-> Hm]; [done|done|].
      change (2 ^ 53 / 2 ^ (54 - 53)) with (2 ^ 52) in Hm.
      split; [lia|]. split; [lia|]. right. lia.
    + (* [freq < max_tf] in one binade *)
      assert (Z.pos pq < 2 ^ 53) as Hpq.
      { rewrite <- Eq. unfold q. apply Z.div_lt_upper_bound; lia. }
      assert (Z.pos (digits2_pos pq) = 53) as Hd53 by (apply digits2_unique; lia).
      rewrite Hd53 in Hcases.
      destruct Hcases as [(-> & Hm & _)|[-> Hm]].
      * split; [done|]. split; [lia|]. left. lia.
      * split; [lia|]. split; [lia|]. right. lia.
Qed.

(** [0.5 + (0.5 * freq) / max_tf] is a float of the binade of 0.5, or
    1.0. *)
Lemma tf_weight_binary64_range (f mx : nat) :
  (1 ≤ f ≤ mx)%nat → Z.of_nat mx < 2 ^ 53 →
  ∃ m e, Prim2SF (tf_weight (W:=float) f mx) = S754_finite false m e
         ∧ ((e = -53 ∧ 2 ^ 52 ≤ Z.pos m < 2 ^ 53) ∨ (e = -52 ∧ Z.pos m = 2 ^ 52)).
Proof.
  intros Hf Hmx. unfold tf_weight. cbn [w_add w_half w_div w_mul w_of_nat binary64].
  destruct (half_ratio_binary64 f mx Hf Hmx) as (mq & eq & Hq & Hb & Hlo & Hcase).
  rewrite add_spec, Hq.
  change (Prim2SF 0.5) with (S754_finite false 4503599627370496 (-53)).
  destruct Hcase as [Heq|[-> Hmq]].
  - assert (0 < 2 ^ (-53 - eq)) as Hp by (apply Z.pow_pos_nonneg; lia).
    assert (2 ^ 53 ≤ 2 ^ 52 * 2 ^ (-53 - eq)) as Hbig.
    { change (2 ^ 53) with (2 ^ 52 * 2 ^ 1). apply Z.mul_le_mono_nonneg_l; [done|].
      apply Z.pow_le_mono_r; lia. }
    set (M := Z.to_pos (2 ^ 52 * 2 ^ (-53 - eq) + Z.pos mq)).
    assert (Z.pos M = 2 ^ 52 * 2 ^ (-53 - eq) + Z.pos mq) as HM
      by (unfold M; rewrite Z2Pos.id; lia).
    assert (Z.pos (digits2_pos M) = - eq) as HdM.
    { apply digits2_unique. rewrite HM.
      assert (2 ^ (- eq - 1) = 2 ^ 52 * 2 ^ (-53 - eq)) as ->.
      { rewrite <- Z.pow_add_r by lia. f_equal. lia. }
      assert (2 ^ (- eq) = 2 * (2 ^ 52 * 2 ^ (-53 - eq))) as ->.
      { change (2 * (2 ^ 52 * 2 ^ (-53 - eq))) with (2 ^ 1 * (2 ^ 52 * 2 ^ (-53 - eq))).
        rewrite <- !Z.pow_add_r by lia. f_equal. lia. }
      lia. }
    rewrite (SFadd_pos_normal _ _ _ _ M).
    + replace (Z.min (-53) eq) with eq by lia.
      destruct (binary_round_aux_normal false M eq loc_Exact)
        as (m & e & -> & Hcases & _); [rewrite HdM; lia..|].
      rewrite HdM in Hcases. exists m, e. split; [done|].
      destruct Hcases as [(-> & Hm & _)|[-> Hm]]; [left|right]; split; try done; lia.
    + replace (Z.min (-53) eq) with eq by lia. rewrite HM.
      replace (eq - eq) with 0 by lia. change (2 ^ 0) with 1.
      change (Z.pos 4503599627370496) with (2 ^ 52). ring.
    + rewrite HdM. lia.
    + rewrite HdM. lia.
  - assert (mq = 4503599627370496%positive) as -> by (by injection Hmq).
    exists 4503599627370496%positive, (-52). split; [reflexivity|]. by right.
Qed.

(** Halving before or after the division gives the same float: the
    code's [0.5 + (0.5 * freq) / max_tf] is [0.5 + 0.5 * (freq / max_tf)]. *)
Lemma tf_weight_binary64_formula (f mx : nat) :
  (1 ≤ f)%nat → (1 ≤ mx)%nat → Z.of_nat f < 2 ^ 53 → Z.of_nat mx < 2 ^ 53 →
  tf_weight (W:=float) f mx
  = (0.5 + 0.5 * (float_of_nat f / float_of_nat mx))%float.
Proof.
  intros Hf Hm Hf53 Hm53. unfold tf_weight.
  cbn [w_add w_half w_div w_mul w_of_nat binary64]. f_equal.
  destruct (float_of_nat_normal f Hf Hf53) as (m1 & e1 & Hf1 & Hb1 & He1 & Hv1).
  destruct (float_of_nat_normal mx Hm Hm53) as (m2 & e2 & Hf2 & Hb2 & He2 & Hv2).
  apply Prim2SF_inj. rewrite div_spec, !mul_spec, div_spec, Hf1, Hf2.
  change (Prim2SF 0.5) with (S754_finite false 4503599627370496 (-53)).
  rewrite SFmul_pow2 by lia. rewrite !SFdiv_normal by lia.
  set (q := Z.pos m1 * 2 ^ 53 / Z.pos m2).
  set (r := Z.pos m1 * 2 ^ 53 mod Z.pos m2).
  assert (2 ^ 52 ≤ q < 2 ^ 54) as Hq.
  { unfold q. split.
    - apply Z.div_le_lower_bound; lia.
    - apply Z.div_lt_upper_bound; lia. }
  destruct q as [|pq|pq] eqn:Eq; [lia| |lia].
  assert (53 ≤ Z.pos (digits2_pos pq) ≤ 54) as Hdq.
  { destruct (decide (Z.pos pq < 2 ^ 53)).
    - rewrite (digits2_unique pq 53); lia.
    - rewrite (digits2_unique pq 54); [lia|]. change (2 ^ (54 - 1)) with (2 ^ 53).
      lia. }
  destruct (binary_round_aux_shift false pq (e1 - e2 - 53)
              (new_location (Z.pos m2) r) (-1))
    as (m & e & Hq1 & Hq2 & Hmb & He); [lia..|].
  replace (e1 + -53 + 52 - e2 - 53) with (e1 - e2 - 53 + -1) by lia.
  rewrite Hq1, Hq2, SFmul_pow2 by lia. f_equal. lia.
Qed.

Local Close Scope Z_scope.

(** The weight before the boost lies between 0.5 and 1.0. *)
Lemma tf_weight_binary64_bounds (f mx : nat) :
  (1 ≤ f ≤ mx)%nat → (Z.of_nat mx < 2 ^ 53)%Z →
  (0.5 <=? tf_weight f mx)%float = true ∧ (tf_weight f mx <=? 1)%float = true.
Proof.
  intros Hf Hmx.
  destruct (tf_weight_binary64_range f mx Hf Hmx) as (m & e & Htf & Hcase).
  rewrite !FloatAxioms.leb_spec, Htf.
  change (Prim2SF 0.5) with (S754_finite false 4503599627370496 (-53)).
  change (Prim2SF 1) with (S754_finite false 4503599627370496 (-52)).
  change (2 ^ 52)%Z with (Z.pos 4503599627370496) in Hcase.
  split; (apply SFleb_rank; [done|done|]); apply rank_le_not_lt;
    unfold rank_lt; cbn [SFrank fst snd]; lia.
Qed.

Lemma float_value_le_1 (x : float) m e :
  Prim2SF x = S754_finite false m e →
  ((e = -53 ∧ 2 ^ 52 ≤ Z.pos m < 2 ^ 53) ∨ (e = -52 ∧ Z.pos m = 2 ^ 52))%Z →
  (float_value x ≤ 1)%Qc.
Proof.
  intros Hx Hcase. unfold float_value. rewrite Hx. unfold Qcle, SF_value.
  cbn [this Q2Qc]. rewrite Qred_correct.
  change (2 ^ 53)%Z with 9007199254740992%Z in Hcase.
  change (2 ^ 52)%Z with 4503599627370496%Z in Hcase.
  destruct Hcase as [[-> Hm]|[-> Hm]].
  - change ((2 ^ (-53))%Q) with (1 # 9007199254740992)%Q.
    change (Qred 1) with (1 # 1)%Q.
    unfold Qle, Qmult, inject_Z. cbn [Qnum Qden Pos.mul]. lia.
  - change ((2 ^ (-52))%Q) with (1 # 4503599627370496)%Q.
    change (Qred 1) with (1 # 1)%Q.
    unfold Qle, Qmult, inject_Z. cbn [Qnum Qden Pos.mul]. lia.
Qed.

(** *** The boost *)

Lemma SFmul_comm x y : SF64mul x y = SF64mul y x.
Proof.
  unfold SF64mul, SFmul.
  destruct x as [[]|[]| |sx mx ex], y as [[]|[]| |sy my ey]; try done;
    try (by destruct sx); try (by destruct sy).
  by rewrite Pos.mul_comm, Z.add_comm, xorb_comm.
Qed.

(** The weight entered for a term, boosted or not, is a positive number:
    doubling moves the exponent. *)
Lemma key_boost_binary64_range t key (f mx : nat) :
  (1 ≤ f ≤ mx)%nat → (Z.of_nat mx < 2 ^ 53)%Z →
  ∃ m e, Prim2SF (key_boost (W:=float) t key (tf_weight f mx)) = S754_finite false m e.
Proof.
  intros Hf Hmx.
  destruct (tf_weight_binary64_range f mx Hf Hmx) as (m & e & Htf & Hcase).
  unfold key_boost. case_decide; [|by exists m, e].
  cbn [w_mul w_of_nat binary64]. rewrite mul_spec, Htf.
  change (Prim2SF (float_of_nat 2)) with (S754_finite false 4503599627370496 (-51)).
  rewrite SFmul_comm.
  change (2 ^ 52)%Z with 4503599627370496%Z in Hcase.
  rewrite SFmul_pow2; [by eexists _, _| |lia..].
  change (2 ^ 52)%Z with 4503599627370496%Z.
  change (2 ^ 53)%Z with 9007199254740992%Z. lia.
Qed.

Lemma key_boost_binary64_add_zero t key (f mx : nat) :
  (1 ≤ f ≤ mx)%nat → (Z.of_nat mx < 2 ^ 53)%Z →
  (0 + key_boost t key (tf_weight f mx))%float = key_boost t key (tf_weight f mx).
Proof.
  intros Hf Hmx. destruct (key_boost_binary64_range t key f mx Hf Hmx) as (m & e & Hw).
  apply float_add_zero_l. unfold not_neg_zero. by rewrite Hw.
Qed.

(** ** Exact weights *)

Local Open Scope Qc_scope.

Lemma Qc_of_nat_S n : Qc_of_nat (S n) = Qc_of_nat n + 1.
Proof.
  unfold Qc_of_nat. rewrite Nat2Z.inj_succ, <- Z.add_1_r, Z2Qc_inj_add.
  by rewrite Z2Qc_inj_1.
Qed.

(** The code's [0.5 + (0.5 * freq / max_tf)] is [0.5 + 0.5 * (freq / max_tf)]. *)
Lemma Qc_sum_le_length (l : list Qc) :
  Forall (λ w, w ≤ 1) l → Qc_sum l ≤ Qc_of_nat (length l).
Proof.
  induction 1 as [|w l Hw _ IH]; simpl; [done|].
  rewrite Qc_of_nat_S, (Qcplus_comm _ 1). by apply Qcplus_le_compat.
Qed.

(** ** The largest frequency of a document *)

Lemma freq_of_le_max_freq t tokens : (freq_of t tokens ≤ max_freq tokens)%nat.
Proof.
  destruct (decide (t ∈ tokens)) as [Hin|Hnin].
  - by apply (max_values_ge t), count_terms_elem.
  - rewrite freq_of_pos in Hnin. lia.
Qed.

Lemma max_freq_attained tokens :
  tokens ≠ [] → ∃ t, t ∈ tokens ∧ freq_of t tokens = max_freq tokens.
Proof.
  intros Hne. destruct (max_values_attained (count_terms tokens)) as [t Ht].
  { by rewrite count_terms_nil. }
  apply count_terms_elem in Ht as [Hin Heq]. by exists t.
Qed.

Lemma count_terms_distinct tokens :
  length (count_terms tokens) = length (remove_dups tokens).
Proof.
  rewrite <- (length_fmap fst). apply Permutation_length, NoDup_Permutation.
  - apply count_terms_NoDup.
  - apply NoDup_remove_dups.
  - intros t. by rewrite count_terms_keys, elem_of_remove_dups.
Qed.

(** ** Reading the index after an update *)

Section IndexFacts.
Context `{Weight W}.
Implicit Types idx : Index W.

Lemma weight_of_posting idx t d : weight_of idx t d = default w_zero (posting idx t d).
Proof. unfold weight_of, posting. by destruct (idx !! t). Qed.

Lemma posting_add_weight t d w idx t' d' :
  posting (add_weight t d w idx) t' d'
  = if decide (t' = t ∧ d' = d) then Some (w_add (weight_of idx t d) w)
    else posting idx t' d'.
Proof.
  unfold add_weight, posting, weight_of.
  destruct (decide (t' = t)) as [->|Hne].
  - rewrite lookup_insert_eq. simpl. destruct (decide (d' = d)) as [->|Hd].
    + rewrite lookup_insert_eq. by rewrite decide_True.
    + rewrite lookup_insert_ne by done. rewrite decide_False by naive_solver.
      by destruct (idx !! t).
  - rewrite lookup_insert_ne by done. by rewrite decide_False by naive_solver.
Qed.

Lemma weight_of_add_weight t d w idx t' d' :
  weight_of (add_weight t d w idx) t' d'
  = if decide (t' = t ∧ d' = d) then w_add (weight_of idx t d) w
    else weight_of idx t' d'.
Proof.
  rewrite (weight_of_posting (add_weight _ _ _ _)), posting_add_weight.
  case_decide; [done|]. by rewrite weight_of_posting.
Qed.

(** *** build_inverted_index *)

Lemma build_loop_posting doc (w : string → nat → W) tf idx t d :
  NoDup tf.*1 →
  posting (foldl (λ idx '(token, freq), add_weight token doc (w token freq) idx) idx tf)
          t d
  = if decide (d = doc ∧ t ∈ tf.*1)
    then Some (w_add (weight_of idx t doc) (w t (tf_get t tf)))
    else posting idx t d.
Proof.
  revert idx. induction tf as [|[t0 n0] tf IH]; intros idx Hnd; csimpl.
  - rewrite decide_False; [done|]. intros [_ ?%elem_of_nil]. done.
  - apply NoDup_cons in Hnd as [Hnin Hnd]. rewrite IH by done.
    rewrite weight_of_add_weight, posting_add_weight.
    repeat case_decide; destruct_and?; simplify_eq; try done; set_solver.
Qed.

(** The stored weight of every pair after a document is added, for any
    weight arithmetic. *)
Lemma build_inverted_index_posting doc tokens key idx lens t d :
  posting (build_inverted_index doc tokens key (idx, lens)).1 t d
  = if decide (d = doc ∧ t ∈ tokens)
    then Some (w_add (weight_of idx t doc)
                 (key_boost t key (tf_weight (freq_of t tokens) (max_freq tokens))))
    else posting idx t d.
Proof.
  unfold build_inverted_index.
  destruct (count_terms tokens) as [|p tf] eqn:Htf.
  - apply count_terms_nil in Htf as ->. simpl.
    rewrite decide_False; [done|]. intros [_ ?%elem_of_nil]. done.
  - rewrite <- Htf. simpl.
    rewrite (build_loop_posting doc
               (λ token freq, key_boost token key
                                (tf_weight freq (max_values (count_terms tokens)))))
      by apply count_terms_NoDup.
    rewrite tf_get_count_terms. unfold max_freq.
    destruct (decide (d = doc ∧ t ∈ tokens)) as [[-> Hin]|Hn].
    + rewrite decide_True; [done|]. split; [done|by apply count_terms_keys].
    + rewrite decide_False; [done|]. rewrite count_terms_keys. done.
Qed.
End IndexFacts.

Local Close Scope Qc_scope.

Lemma float_add_zero_l_neq (x : float) : x ≠ (-0)%float → (0 + x = x)%float.
Proof.
  intros Hx. apply float_add_zero_l. intros Hz. apply Hx.
  rewrite <- (SF2Prim_Prim2SF x), Hz. reflexivity.
Qed.

(** C1. For a document with a non-empty token list, the weight recorded
    for a term [t] of the document is, in the arithmetic of the code and
    as the code writes it, [0.5 + (0.5 * freq t) / maxFreq], times 2
    (once, however often [t] occurs in the key text) when [t] is among
    the key tokens, where [maxFreq] is the largest raw term frequency of
    the document: the weight is added to the entry of [(t, doc)], from
    0 when the pair was absent.  With the floats of the code and
    frequencies below [2 ^ 53], that weight is the float
    [0.5 + 0.5 * (freq t / maxFreq)], doubled for a key token, and it is
    itself the entry of a pair that was absent.  With body tokens ["dog"]
    and key tokens ["dog"], once or twice, the weight is the float 2.0. *)
Theorem build_inverted_index_weight `{Weight W} doc tokens key_tokens
    (idx : Index W) lens t :
  t ∈ tokens →
  let base :=
    w_add w_half
      (w_div (w_mul w_half (w_of_nat (freq_of t tokens)))
             (w_of_nat (max_freq tokens))) in
  let w := if decide (t ∈ key_tokens) then w_mul base (w_of_nat 2) else base in
  let idx' := (build_inverted_index doc tokens key_tokens (idx, lens)).1 in
  ((∃ t', t' ∈ tokens ∧ freq_of t' tokens = max_freq tokens)
   ∧ ∀ t', (freq_of t' tokens ≤ max_freq tokens)%nat)
  ∧ posting idx' t doc = Some (w_add (weight_of idx t doc) w)
  ∧ (posting idx t doc = None → posting idx' t doc = Some (w_add w_zero w))
  ∧ (∀ x : float, x ≠ (-0)%float → w_add w_zero x = x)
  ∧ (∀ (fidx : Index float) flens,
       (Z.of_nat (max_freq tokens) < 2 ^ 53)%Z →
       let fbase :=
         (0.5 + 0.5 * (float_of_nat (freq_of t tokens)
                       / float_of_nat (max_freq tokens)))%float in
       let fw := if decide (t ∈ key_tokens) then (fbase * 2)%float else fbase in
       let fidx' := (build_inverted_index doc tokens key_tokens (fidx, flens)).1 in
       posting fidx' t doc = Some (weight_of fidx t doc + fw)%float
       ∧ (posting fidx t doc = None → posting fidx' t doc = Some fw))
  ∧ posting (build_inverted_index (W:=float) "D2" ["dog"] ["dog"] (∅, ∅)).1 "dog" "D2"
    = Some 2%float
  ∧ posting (build_inverted_index (W:=float) "D2" ["dog"] ["dog"; "dog"] (∅, ∅)).1
      "dog" "D2"
    = Some 2%float.
Proof.
  intros Hin base w idx'.
  assert (posting idx' t doc = Some (w_add (weight_of idx t doc) w)) as Hpost.
  { unfold idx'. by rewrite build_inverted_index_posting, decide_True by done. }
  assert ((1 ≤ freq_of t tokens ≤ max_freq tokens)%nat) as Hfreq.
  { split; [by apply freq_of_pos|apply freq_of_le_max_freq]. }
  split_and!.
  - apply max_freq_attained. by intros ->; apply elem_of_nil in Hin.
  - intros t'. apply freq_of_le_max_freq.
  - done.
  - intros Hnone. by rewrite Hpost, weight_of_posting, Hnone.
  - apply float_add_zero_l_neq.
  - intros fidx flens Hmax fbase fw fidx'.
    assert (key_boost t key_tokens
              (tf_weight (freq_of t tokens) (max_freq tokens)) = fw) as Hfw.
    { unfold key_boost, fw, fbase.
      rewrite tf_weight_binary64_formula by lia. done. }
    assert (posting fidx' t doc = Some (weight_of fidx t doc + fw)%float) as Hfpost.
    { unfold fidx'. rewrite build_inverted_index_posting, decide_True by done.
      by rewrite Hfw. }
    split; [done|]. intros Hnone. rewrite Hfpost, weight_of_posting, Hnone.
    f_equal. rewrite <- Hfw. by apply key_boost_binary64_add_zero.
  - vm_compute. reflexivity.
  - vm_compute. reflexivity.
Qed.

Lemma build_inverted_index_weight_witness :
  let base : float :=
    w_add w_half
      (w_div (w_mul w_half (w_of_nat (freq_of "dog" ["cat"; "dog"; "cat"])))
             (w_of_nat (max_freq ["cat"; "dog"; "cat"]))) in
  posting (build_inverted_index (W:=float) "D1" ["cat"; "dog"; "cat"] [] (∅, ∅)).1
    "dog" "D1"
  = Some (w_add (weight_of (∅ : Index float) "dog" "D1")
            (if decide ("dog" ∈ ([] : list string)) then w_mul base (w_of_nat 2)
             else base)).
Proof.
  assert ("dog" ∈ ["cat"; "dog"; "cat"]) as Hin by (right; left).
  exact (proj1 (proj2
    (build_inverted_index_weight (W:=float) "D1" ["cat"; "dog"; "cat"] [] ∅ ∅
       "dog" Hin))).
Defined.

Local Open Scope Qc_scope.

Local Close Scope Qc_scope.

Lemma preboost_weights_binary64 tokens :
  (Z.of_nat (max_freq tokens) < 2 ^ 53)%Z →
  Forall (λ w : float, (float_value w ≤ 1)%Qc) (preboost_weights tokens).
Proof.
  intros Hmax. unfold preboost_weights. apply Forall_fmap, Forall_forall.
  intros [t n] Hin. simpl.
  apply count_terms_elem in Hin as Hin'. destruct Hin' as [Ht ->].
  destruct (tf_weight_binary64_range (freq_of t tokens) (max_freq tokens))
    as (m & e & Htf & Hcase); [|done|].
  - split; [by apply freq_of_pos|apply freq_of_le_max_freq].
  - by apply (float_value_le_1 _ m e).
Qed.

(** C8. For a document with at least one token, whose largest term
    frequency is below [2 ^ 53], every term of non-zero frequency gets,
    with the floats of the code, a weight between 0.5 and 1.0 before the
    key-text boost, and the sum of the real values of these weights over
    the document's terms is at most the number of distinct terms. *)
Theorem preboost_weight_bounds tokens :
  tokens ≠ [] → (Z.of_nat (max_freq tokens) < 2 ^ 53)%Z →
  (∀ t, (0 < freq_of t tokens)%nat →
        (0.5 <=? tf_weight (freq_of t tokens) (max_freq tokens))%float = true
        ∧ (tf_weight (freq_of t tokens) (max_freq tokens) <=? 1)%float = true)
  ∧ length (preboost_weights (W:=float) tokens) = length (remove_dups tokens)
  ∧ (Qc_sum (float_value <$> preboost_weights (W:=float) tokens)
     ≤ Qc_of_nat (length (remove_dups tokens)))%Qc.
Proof.
  intros _ Hmax. split_and!.
  - intros t Ht. apply tf_weight_binary64_bounds; [|done].
    split; [lia|apply freq_of_le_max_freq].
  - unfold preboost_weights. by rewrite length_fmap, count_terms_distinct.
  - replace (length (remove_dups tokens))
      with (length (float_value <$> preboost_weights (W:=float) tokens)).
    + apply Qc_sum_le_length, Forall_fmap. by apply preboost_weights_binary64.
    + unfold preboost_weights. by rewrite !length_fmap, count_terms_distinct.
Qed.

Lemma preboost_weight_bounds_witness :
  (∀ t, (0 < freq_of t ["cat"; "dog"; "cat"])%nat →
        (0.5 <=? tf_weight (freq_of t ["cat"; "dog"; "cat"])
                   (max_freq ["cat"; "dog"; "cat"]))%float = true
        ∧ (tf_weight (freq_of t ["cat"; "dog"; "cat"])
             (max_freq ["cat"; "dog"; "cat"]) <=? 1)%float = true)
  ∧ length (preboost_weights (W:=float) ["cat"; "dog"; "cat"])
    = length (remove_dups ["cat"; "dog"; "cat"])
  ∧ (Qc_sum (float_value <$> preboost_weights (W:=float) ["cat"; "dog"; "cat"])
     ≤ Qc_of_nat (length (remove_dups ["cat"; "dog"; "cat"])))%Qc.
Proof.
  apply (preboost_weight_bounds ["cat"; "dog"; "cat"]); [discriminate|].
  vm_compute. reflexivity.
Defined.

Local Open Scope Qc_scope.

(** ** merge_partial_indexes *)

Section MergeFacts.
Context `{Weight W}.
Implicit Types (p q : Postings W) (seg final : Index W).

Lemma lookup_acc_postings p q d :
  acc_postings p q !! d
  = match p !! d with
    | Some w => Some (w_add (default w_zero (q !! d)) w)
    | None => q !! d
    end.
Proof. unfold acc_postings. rewrite lookup_merge. by destruct (p !! d), (q !! d). Qed.

Lemma acc_postings_empty q : acc_postings ∅ q = q.
Proof. apply map_eq; intros d. by rewrite lookup_acc_postings, lookup_empty. Qed.

Lemma acc_postings_insert d w p q :
  p !! d = None →
  <[d := w_add (default w_zero (q !! d)) w]> (acc_postings p q)
  = acc_postings (<[d := w]> p) q.
Proof.
  intros Hd. apply map_eq; intros d'. rewrite !lookup_acc_postings.
  destruct (decide (d' = d)) as [->|Hne].
  - by rewrite !lookup_insert_eq.
  - by rewrite !lookup_insert_ne, lookup_acc_postings by done.
Qed.

Lemma merge_postings_spec t p final :
  merge_postings t p final
  = if decide (p = ∅) then final
    else <[t := acc_postings p (default ∅ (final !! t))]> final.
Proof.
  unfold merge_postings. revert p.
  apply (map_fold_weak_ind (λ r (m : Postings W),
    r = if decide (m = ∅) then final
        else <[t := acc_postings m (default ∅ (final !! t))]> final)).
  - by rewrite decide_True.
  - intros d w m r Hd ->. rewrite (decide_False (P := <[d:=w]> m = ∅))
      by apply insert_non_empty.
    unfold add_weight. destruct (decide (m = ∅)) as [->|Hm].
    + rewrite <- acc_postings_insert, acc_postings_empty by done. done.
    + rewrite lookup_insert_eq. simpl. rewrite insert_insert_eq.
      rewrite <- acc_postings_insert by done.
      by rewrite lookup_acc_postings, Hd.
Qed.

Lemma lookup_acc_index seg final t :
  acc_index seg final !! t
  = match seg !! t with
    | Some p => if decide (p = ∅) then final !! t
                else Some (acc_postings p (default ∅ (final !! t)))
    | None => final !! t
    end.
Proof.
  unfold acc_index. rewrite lookup_merge.
  destruct (seg !! t) as [p|], (final !! t); simpl; by try case_decide.
Qed.

Lemma merge_segment_spec seg final : merge_segment seg final = acc_index seg final.
Proof.
  unfold merge_segment. revert seg.
  apply (map_fold_weak_ind (λ r (m : Index W), r = acc_index m final)).
  - apply map_eq; intros t. by rewrite lookup_acc_index, lookup_empty.
  - intros t p m r Ht ->. rewrite merge_postings_spec.
    apply map_eq; intros t'. rewrite (lookup_acc_index (<[t:=p]> m)).
    destruct (decide (t' = t)) as [->|Hne].
    + rewrite lookup_insert_eq. case_decide.
      * by rewrite lookup_acc_index, Ht.
      * by rewrite lookup_insert_eq, lookup_acc_index, Ht.
    + rewrite (lookup_insert_ne m) by done. case_decide.
      * by rewrite lookup_acc_index.
      * by rewrite lookup_insert_ne, lookup_acc_index by done.
Qed.

Lemma posting_acc_index seg final t d :
  posting (acc_index seg final) t d
  = match posting seg t d with
    | Some w => Some (w_add (default w_zero (posting final t d)) w)
    | None => posting final t d
    end.
Proof.
  unfold posting. rewrite lookup_acc_index.
  destruct (seg !! t) as [p|]; simpl; [|done]. case_decide as Hp.
  - subst p. by rewrite lookup_empty.
  - simpl. rewrite lookup_acc_postings. by destruct (final !! t).
Qed.

(** The weight of a pair after the merge is the sum, from the weight it
    had and in the order of the segments, of its weights in the segments
    that hold it. *)
Lemma posting_merge_into final segs t d :
  posting (merge_into final segs) t d
  = match pair_weights segs t d with
    | [] => posting final t d
    | ws => Some (foldl w_add (default w_zero (posting final t d)) ws)
    end.
Proof.
  revert final. induction segs as [|s segs IH]; intros final; [done|].
  unfold merge_into, pair_weights in *. csimpl.
  rewrite IH, merge_segment_spec, posting_acc_index.
  destruct (posting s t d) as [w|]; [|done].
  by destruct (omap _ segs) as [|w' ws].
Qed.

(** When every file can be read the result is the merge of the segments
    read, and the output file holds it. *)
Lemma merge_partial_indexes_read files out (disk : gmap string (Index W)) segs :
  Forall2 (λ f seg, disk !! f = Some seg) files segs →
  merge_partial_indexes files out disk
  = Some (merge_segments segs, <[out := merge_segments segs]> disk).
Proof.
  intros Hread. unfold merge_partial_indexes, merge_segments.
  enough (∀ final,
    foldl (λ acc partial, final_index ← acc; partial_index ← disk !! partial;
                          Some (merge_segment partial_index final_index))
          (Some final) files
    = Some (foldl (λ final_index partial_index, merge_segment partial_index final_index)
                  final segs)) as -> by done.
  induction Hread as [|f seg files segs Hf _ IH]; intros final; simpl; [done|].
  rewrite Hf. simpl. apply IH.
Qed.

Lemma read_all_segments (disk : gmap string (Index W)) files :
  Forall (λ f, is_Some (disk !! f)) files →
  Forall2 (λ f seg, disk !! f = Some seg) files (omap (disk !!.) files).
Proof.
  induction 1 as [|f files [seg Hf] _ IH]; csimpl; [constructor|].
  rewrite Hf. simpl. by constructor.
Qed.

End MergeFacts.

Local Close Scope Qc_scope.

(** ** Indexes without empty posting lists *)

Section InvariantFacts.
Context `{Weight W}.
Implicit Types (p q : Postings W) (idx seg final : Index W).

Lemma no_empty_postings_empty : no_empty_postings (∅ : Index W).
Proof. intros t p Ht. by rewrite lookup_empty in Ht. Qed.

Lemma acc_postings_non_empty p q : p ≠ ∅ → acc_postings p q ≠ ∅.
Proof.
  intros Hp Hacc. apply Hp, map_empty. intros d.
  assert (acc_postings p q !! d = None) as Hd by (by rewrite Hacc, lookup_empty).
  rewrite lookup_acc_postings in Hd. by destruct (p !! d).
Qed.

Lemma no_empty_postings_acc_index seg final :
  no_empty_postings final → no_empty_postings (acc_index seg final).
Proof.
  intros Hfinal t p. rewrite lookup_acc_index.
  destruct (seg !! t) as [ps|]; [|apply Hfinal].
  case_decide; [apply Hfinal|]. intros [= <-]. by apply acc_postings_non_empty.
Qed.

Lemma no_empty_postings_merge_into final segs :
  no_empty_postings final → no_empty_postings (merge_into final segs).
Proof.
  revert final. induction segs as [|seg segs IH]; intros final Hfinal; [done|].
  unfold merge_into. simpl. apply IH. rewrite merge_segment_spec.
  by apply no_empty_postings_acc_index.
Qed.

Lemma no_empty_postings_merge_segments segs :
  no_empty_postings (merge_segments segs).
Proof. apply (no_empty_postings_merge_into ∅), no_empty_postings_empty. Qed.

(** Two indexes without empty posting lists are equal when they agree
    on the weight of every pair. *)
Lemma index_eq_posting idx1 idx2 :
  no_empty_postings idx1 → no_empty_postings idx2 →
  (∀ t d, posting idx1 t d = posting idx2 t d) → idx1 = idx2.
Proof.
  intros H1 H2 Heq.
  assert (∀ (a b : Index W) t p, no_empty_postings a →
            (∀ t d, posting a t d = posting b t d) →
            a !! t = Some p → ∃ p', b !! t = Some p') as Hsome.
  { intros a b t p Ha Hab Ht.
    destruct (map_choose p) as (d & w & Hd); [by eapply Ha|].
    specialize (Hab t d). unfold posting in Hab. rewrite Ht in Hab. simpl in Hab.
    rewrite Hd in Hab. destruct (b !! t) as [p'|]; [by exists p'|done]. }
  apply map_eq. intros t.
  destruct (idx1 !! t) as [p1|] eqn:Ht1.
  - destruct (Hsome idx1 idx2 t p1 H1 Heq Ht1) as [p2 Ht2]. rewrite Ht2. f_equal.
    apply map_eq. intros d. specialize (Heq t d). unfold posting in Heq.
    by rewrite Ht1, Ht2 in Heq.
  - destruct (idx2 !! t) as [p2|] eqn:Ht2; [|done].
    destruct (Hsome idx2 idx1 t p2 H2 (λ t d, eq_sym (Heq t d)) Ht2) as [p1 Hp1].
    by rewrite Ht1 in Hp1.
Qed.

(** The weight of a pair after the merge of segments. *)
Lemma posting_merge_segments segs t d :
  posting (merge_segments segs) t d
  = match pair_weights segs t d with
    | [] => None
    | ws => Some (foldl w_add w_zero ws)
    end.
Proof.
  unfold merge_segments. fold (merge_into ∅ segs).
  rewrite posting_merge_into. destruct (pair_weights segs t d); [done|].
  unfold posting at 1. by rewrite lookup_empty.
Qed.

Lemma pair_weights_Permutation (segs segs' : list (Index W)) t d :
  segs ≡ₚ segs' → pair_weights segs t d ≡ₚ pair_weights segs' t d.
Proof. intros Hp. unfold pair_weights. by rewrite Hp. Qed.
End InvariantFacts.

(** ** The order of the segments, with the floats of the code *)

(** A pair that at most two of the segments hold gets the same weight in
    any order of the segments. *)
Lemma foldl_float_add_Permutation (ws ws' : list float) :
  ws ≡ₚ ws' → (length ws ≤ 2)%nat →
  foldl PrimFloat.add 0%float ws = foldl PrimFloat.add 0%float ws'.
Proof.
  intros Hp Hlen. destruct ws as [|a [|b [|c ws]]]; simpl in Hlen; [| | |lia].
  - apply Permutation_nil_l in Hp. by subst.
  - apply Permutation_singleton_l in Hp. by subst.
  - apply Permutation_length_2_inv in Hp as [Heq|Heq]; subst ws'; [done|].
    simpl. apply float_add_zero_swap.
Qed.

Lemma merge_segments_binary64_Permutation (segs segs' : list (Index float)) :
  segs ≡ₚ segs' → (∀ t d, (length (pair_weights segs t d) ≤ 2)%nat) →
  merge_segments segs = merge_segments segs'.
Proof.
  intros Hp Hlen.
  apply index_eq_posting; [apply no_empty_postings_merge_segments..|].
  intros t d. rewrite !posting_merge_segments.
  pose proof (pair_weights_Permutation segs segs' t d Hp) as Hw.
  pose proof (foldl_float_add_Permutation _ _ Hw (Hlen t d)) as Hsum.
  destruct (pair_weights segs t d) as [|a ws] eqn:E1.
  - apply Permutation_nil_l in Hw. by rewrite <- Hw.
  - destruct (pair_weights segs' t d) as [|a' ws'] eqn:E2.
    + by apply Permutation_nil_r in Hw.
    + f_equal. exact Hsum.
Qed.

Lemma pair_weights_two (A B : Index float) t d :
  (length (pair_weights [A; B] t d) ≤ 2)%nat.
Proof.
  unfold pair_weights. csimpl.
  destruct (posting A t d), (posting B t d); simpl; lia.
Qed.

(** C3, as amended. The merge is an additive accumulation, in any weight
    arithmetic: the final weight of a pair (term, DocID) is the sum, from
    0 and in the order of the segments, of its weights in the segments
    that hold it, and a pair that no segment holds stays absent.  With
    the floats of the code, merging [A, B] and merging [B, A] give the
    identical index, and so does any reordering of segments of which at
    most two hold any one pair, read from files or not.  Two segments
    that both hold ("cat", D1, 1.0) merge to the weight 2.0. *)
Theorem merge_additive :
  (∀ W (arith : Weight W) (segs : list (Index W)) t d,
     posting (merge_segments segs) t d
     = match pair_weights segs t d with
       | [] => None
       | ws => Some (foldl w_add w_zero ws)
       end)
  ∧ (∀ W (arith : Weight W) files out (disk : gmap string (Index W)),
       Forall (λ f, is_Some (disk !! f)) files →
       merge_partial_indexes files out disk
       = Some (merge_segments (omap (disk !!.) files),
               <[out := merge_segments (omap (disk !!.) files)]> disk))
  ∧ (∀ A B : Index float, merge_segments [A; B] = merge_segments [B; A])
  ∧ (∀ segs segs' : list (Index float),
       segs ≡ₚ segs' → (∀ t d, (length (pair_weights segs t d) ≤ 2)%nat) →
       merge_segments segs = merge_segments segs')
  ∧ (∀ files files' out (disk : gmap string (Index float)),
       Forall (λ f, is_Some (disk !! f)) files → files ≡ₚ files' →
       (∀ t d, (length (pair_weights (omap (disk !!.) files) t d) ≤ 2)%nat) →
       merge_partial_indexes files' out disk
       = merge_partial_indexes files out disk)
  ∧ posting (merge_segments (W:=float)
               [ {["cat" := {["D1" := 1%float]}]}; {["cat" := {["D1" := 1%float]}]} ])
            "cat" "D1" = Some 2%float.
Proof.
  split_and!.
  - intros W arith segs t d. apply posting_merge_segments.
  - intros W arith files out disk Hread.
    by rewrite (merge_partial_indexes_read files out disk _ (read_all_segments _ _ Hread)).
  - intros A B. apply merge_segments_binary64_Permutation.
    + apply Permutation_swap.
    + apply pair_weights_two.
  - apply merge_segments_binary64_Permutation.
  - intros files files' out disk Hread Hp Hlen.
    rewrite (merge_partial_indexes_read files out disk _
               (read_all_segments _ _ Hread)).
    rewrite Hp in Hread.
    rewrite (merge_partial_indexes_read files' out disk _
               (read_all_segments _ _ Hread)).
    by rewrite (merge_segments_binary64_Permutation _ _
                  (omap_Permutation _ _ _ Hp) Hlen).
  - vm_compute. reflexivity.
Qed.

Lemma merge_additive_witness :
  merge_segments (W:=float)
    [ {["cat" := {["D1" := 0x1.3333333333333p-1%float]}]};
      {["cat" := {["D1" := 0x1.ccccccccccccdp-1%float; "D2" := 0.5%float]}]} ]
  = merge_segments
      [ {["cat" := {["D1" := 0x1.ccccccccccccdp-1%float; "D2" := 0.5%float]}]};
        {["cat" := {["D1" := 0x1.3333333333333p-1%float]}]} ].
Proof. apply (proj1 (proj2 (proj2 merge_additive))). Defined.

Local Open Scope Qc_scope.

(** C3 fails as stated for the floats the code adds: the same three
    segments, which hold ("cat", D1) with the weights 0.6, 0.7 and 0.9,
    merge to 2.1999999999999997 in one order and to 2.2 in the other. *)
Lemma merge_order_matters_binary64 :
  [ {["cat" := {["D1" := 0x1.3333333333333p-1%float]}]};
    {["cat" := {["D1" := 0x1.6666666666666p-1%float]}]};
    {["cat" := {["D1" := 0x1.ccccccccccccdp-1%float]}]} ]
  ≡ₚ [ {["cat" := {["D1" := 0x1.ccccccccccccdp-1%float]}]};
       {["cat" := {["D1" := 0x1.6666666666666p-1%float]}]};
       ({["cat" := {["D1" := 0x1.3333333333333p-1%float]}]} : Index float) ]
  ∧ posting (merge_segments
               [ {["cat" := {["D1" := 0x1.3333333333333p-1%float]}]};
                 {["cat" := {["D1" := 0x1.6666666666666p-1%float]}]};
                 {["cat" := {["D1" := 0x1.ccccccccccccdp-1%float]}]} ])
            "cat" "D1" = Some 0x1.1999999999999p+1%float
  ∧ posting (merge_segments
               [ {["cat" := {["D1" := 0x1.ccccccccccccdp-1%float]}]};
                 {["cat" := {["D1" := 0x1.6666666666666p-1%float]}]};
                 {["cat" := {["D1" := 0x1.3333333333333p-1%float]}]} ])
            "cat" "D1" = Some 0x1.199999999999ap+1%float
  ∧ merge_segments
      [ {["cat" := {["D1" := 0x1.3333333333333p-1%float]}]};
        {["cat" := {["D1" := 0x1.6666666666666p-1%float]}]};
        {["cat" := {["D1" := 0x1.ccccccccccccdp-1%float]}]} ]
    ≠ merge_segments
        [ {["cat" := {["D1" := 0x1.ccccccccccccdp-1%float]}]};
          {["cat" := {["D1" := 0x1.6666666666666p-1%float]}]};
          {["cat" := {["D1" := 0x1.3333333333333p-1%float]}]} ]
  ∧ tf_weight (W:=float) 1 5 = 0x1.3333333333333p-1%float
  ∧ tf_weight (W:=float) 2 5 = 0x1.6666666666666p-1%float
  ∧ tf_weight (W:=float) 4 5 = 0x1.ccccccccccccdp-1%float.
Proof.
  split_and!; try (vm_compute; reflexivity).
  - symmetry. apply (reverse_Permutation [_; _; _]).
  - intros Heq. apply (f_equal (λ idx, posting idx "cat" "D1")) in Heq.
    vm_compute in Heq. discriminate Heq.
Qed.

(** ** Bool_Search *)

Lemma elem_of_foldl_intersection (s : gset string) rest d :
  d ∈ foldl (∩) s rest ↔ d ∈ s ∧ ∀ s', s' ∈ rest → d ∈ s'.
Proof.
  revert s. induction rest as [|s0 rest IH]; intros s; simpl.
  - set_solver.
  - rewrite IH, elem_of_intersection. set_solver.
Qed.

Section QueryFacts.
Context {W : Type}.
Variable stem : string → string.
Implicit Types idx : Index W.

(** The search never raises, and its result is the set the
    specification describes. *)
Lemma Bool_Search_elem queries idx :
  ∃ result, Bool_Search stem queries idx = Some result
    ∧ ∀ d, d ∈ result ↔ matches_query (tokenize_and_normalize stem queries) idx d.
Proof.
  unfold Bool_Search, matches_query.
  generalize (tokenize_and_normalize stem queries); intros tokens.
  destruct tokens as [|t0 tokens'] eqn:Htok.
  { exists ∅. split; [done|]. set_solver. }
  rewrite <- Htok. clear Htok t0 tokens'.
  destruct (filter (λ token, is_Some (idx !! token)) tokens) as [|t1 present] eqn:Hf.
  { exists ∅. split; [done|]. intros d. split; [set_solver|].
    intros [[t [Hin Hsome]] _].
    assert (t ∈ filter (λ token, is_Some (idx !! token)) tokens) as Ht
      by (by apply list_elem_of_filter).
    rewrite Hf in Ht. by apply elem_of_nil in Ht. }
  csimpl. eexists. split; [done|]. intros d.
  assert (∀ t, t ∈ t1 :: present ↔ is_Some (idx !! t) ∧ t ∈ tokens) as Hpres.
  { intros t. rewrite <- Hf.
    apply (list_elem_of_filter (λ token, is_Some (idx !! token))). }
  rewrite elem_of_foldl_intersection. split.
  - intros [Hd1 Hrest]. split.
    + exists t1. apply and_comm, Hpres. left.
    + intros t p Hin Hp.
      assert (t ∈ t1 :: present) as [->|Ht]%elem_of_cons
        by (apply Hpres; split; [by rewrite Hp|done]).
      * by rewrite Hp in Hd1.
      * specialize (Hrest (dom (default ∅ (idx !! t)))). rewrite Hp in Hrest.
        apply Hrest, list_elem_of_fmap. exists t. by rewrite Hp.
  - intros [_ Hall]. split.
    + destruct (Hpres t1) as [[[p Hp] Hin] _]; [left|].
      rewrite Hp. simpl. by apply (Hall t1).
    + intros s' [t [-> Ht]]%list_elem_of_fmap.
      destruct (Hpres t) as [[[p Hp] Hin] _]; [by right|].
      rewrite Hp. simpl. by apply (Hall t).
Qed.

(** C2. For every query string the boolean search returns (it never
    raises) exactly the intersection, over the normalized query terms
    that are in the index, of their posting lists' DocID sets: terms
    absent from the index impose no constraint, and the result is empty
    when the normalized query is empty or none of its terms is in the
    index. *)
Theorem Bool_Search_intersection queries idx :
  let tokens := tokenize_and_normalize stem queries in
  ∃ result, Bool_Search stem queries idx = Some result
    ∧ (∀ d, d ∈ result ↔
            (∃ t, t ∈ tokens ∧ is_Some (idx !! t))
            ∧ ∀ t p, t ∈ tokens → idx !! t = Some p → d ∈ dom p)
    ∧ (tokens = [] → result = ∅)
    ∧ ((∀ t, t ∈ tokens → idx !! t = None) → result = ∅).
Proof.
  intros tokens. destruct (Bool_Search_elem queries idx) as [result [Hres Helem]].
  exists result. fold tokens in Helem. unfold matches_query in Helem.
  split_and!; [done|done| |].
  - intros Hnil. apply set_eq; intros d. rewrite Helem, Hnil. set_solver.
  - intros Habs. apply set_eq; intros d. rewrite Helem. split; [|set_solver].
    intros [[t [Hin [p Hp]]] _]. rewrite (Habs t Hin) in Hp. done.
Qed.

(** C9, as amended. Extending a query with more text yields a subset of
    the original result when some term of the original query is in the
    index, and yields the original result, whatever the query, when no
    added term is in the index. *)
Theorem Bool_Search_extend queries extra idx :
  ∃ result result',
    Bool_Search stem queries idx = Some result
    ∧ Bool_Search stem (queries +:+ " " +:+ extra) idx = Some result'
    ∧ ((∃ t, t ∈ tokenize_and_normalize stem queries ∧ is_Some (idx !! t)) →
       result' ⊆ result)
    ∧ ((∀ t, t ∈ tokenize_and_normalize stem extra → idx !! t = None) →
       result' = result).
Proof.
  destruct (Bool_Search_elem queries idx) as [result [Hres Helem]].
  destruct (Bool_Search_elem (queries +:+ " " +:+ extra) idx)
    as [result' [Hres' Helem']].
  rewrite tokenize_and_normalize_space in Helem'.
  exists result, result'. unfold matches_query in *. split_and!; [done|done| |].
  - intros Hsome d. rewrite Helem, Helem'. intros [_ Hall]. split; [done|].
    intros t p Hin. apply Hall, elem_of_app. by left.
  - intros Habs. apply set_eq; intros d. rewrite Helem, Helem'. split.
    + intros [[t [[Hin|Hin]%elem_of_app [p Hp]]] Hall].
      * split; [by exists t; rewrite Hp|].
        intros t' p' Hin'. apply Hall, elem_of_app. by left.
      * by rewrite (Habs t Hin) in Hp.
    + intros [[t [Hin Hsome]] Hall]. split.
      * exists t. split; [apply elem_of_app; by left|done].
      * intros t' p' [Hin'|Hin']%elem_of_app Hp'; [by apply (Hall t')|].
        by rewrite (Habs t' Hin') in Hp'.
Qed.
End QueryFacts.

(** C9 fails as stated: no term of the query "bird" is in the index, so
    its result is empty; extended with "cat" the result is the posting
    list of "cat". *)
Lemma Bool_Search_not_monotone :
  Bool_Search stem_as_is "bird" ({["cat" := {["D1" := 1%float]}]} : Index float)
  = Some ∅
  ∧ Bool_Search stem_as_is ("bird" +:+ " " +:+ "cat")
      ({["cat" := {["D1" := 1%float]}]} : Index float)
    = Some {["D1"]}
  ∧ ¬ ({["D1"]} : gset string) ⊆ ∅.
Proof.
  split_and!.
  - done.
  - vm_compute. done.
  - set_solver.
Qed.

Lemma Bool_Search_extend_witness :
  ∃ result result',
    Bool_Search stem_as_is "cat"
      ({["cat" := {["D1" := 1; "D2" := 1]}; "dog" := {["D2" := 1]}]} : Index Qc)
    = Some result
    ∧ Bool_Search stem_as_is ("cat" +:+ " " +:+ "dog")
        ({["cat" := {["D1" := 1; "D2" := 1]}; "dog" := {["D2" := 1]}]} : Index Qc)
      = Some result'
    ∧ result' ⊆ result.
Proof.
  destruct (Bool_Search_extend stem_as_is "cat" "dog"
              ({["cat" := {["D1" := 1; "D2" := 1]}; "dog" := {["D2" := 1]}]} : Index Qc))
    as [result [result' [H1 [H2 [Hsub _]]]]].
  exists result, result'. split_and!; [done|done|].
  apply Hsub. exists "cat". split; [left|]. by eexists.
Defined.

Lemma Bool_Search_intersection_witness :
  ∃ result,
    Bool_Search stem_as_is "bird" ({["cat" := {["D1" := 1]}]} : Index Qc)
    = Some result
    ∧ result = ∅.
Proof.
  destruct (Bool_Search_intersection stem_as_is "bird"
              ({["cat" := {["D1" := 1]}]} : Index Qc))
    as [result (Hres & _ & _ & Habsent)].
  exists result. split; [done|]. apply Habsent.
  intros t Ht. apply list_elem_of_singleton in Ht as ->. reflexivity.
Defined.

(** ** sorted(..., reverse=True) *)

Section SortedReverseAny.
Context `{Weight W} {A : Type} (key : A → W).

Lemma insert_desc_Permutation x l : insert_desc key x l ≡ₚ x :: l.
Proof.
  induction l as [|y l IH]; simpl; [done|].
  destruct (w_ltb (key x) (key y)); [|done]. by rewrite IH, Permutation_swap.
Qed.

Lemma sorted_reverse_Permutation l : sorted_reverse key l ≡ₚ l.
Proof.
  induction l as [|x l IH]; simpl; [done|].
  by rewrite insert_desc_Permutation, IH.
Qed.
End SortedReverseAny.

Local Close Scope Qc_scope.

(** ** sorted(..., reverse=True) on binary64 keys *)

Section SortedReverseBinary64.
Context {A : Type} (key : A → float).








End SortedReverseBinary64.

Local Open Scope Qc_scope.

(** ** The score *)








(** ** print_top_5_urls *)


Local Close Scope Qc_scope.


(** ** The score, in any arithmetic and in binary64 *)







Local Open Scope Qc_scope.

Local Close Scope Qc_scope.



Local Open Scope Qc_scope.




(** ** process_all_documents *)

Local Close Scope Qc_scope.

Lemma flush_step (c : N) :
  ((c + 1) / 10000 = if (c + 1) mod 10000 =? 0 then c / 10000 + 1 else c / 10000)%N.
Proof.
  pose proof (N.div_mod' c 10000) as Hc.
  pose proof (N.mod_upper_bound c 10000 ltac:(done)) as Hlt.
  pose proof (N.div_mod' (c + 1) 10000) as Hc1.
  pose proof (N.mod_upper_bound (c + 1) 10000 ltac:(done)) as Hlt1.
  destruct (N.eqb_spec ((c + 1) mod 10000) 0) as [H0|H0];
    revert Hc Hlt Hc1 Hlt1 H0;
    generalize (c / 10000)%N ((c + 1) / 10000)%N (c mod 10000)%N ((c + 1) mod 10000)%N;
    intros q q1 r r1; lia.
Qed.

Lemma part_names_snoc k :
  part_names (S k) = part_names k ++ [partial_name (N.of_nat (S k))].
Proof. unfold part_names. by rewrite seq_S, fmap_app. Qed.

Lemma string_length_app s1 s2 :
  String.length (s1 +:+ s2) = String.length s1 + String.length s2.
Proof.
  induction s1 as [|c s1 IH]; [done|].
  change (S (String.length (s1 +:+ s2)) = S (String.length s1 + String.length s2)).
  by rewrite IH.
Qed.

Lemma string_app_inj_l t s1 s2 : s1 +:+ t = s2 +:+ t → s1 = s2.
Proof.
  revert s2. induction s1 as [|c1 s1 IH]; intros [|c2 s2] H.
  - done.
  - apply (f_equal String.length) in H. rewrite !string_length_app in H.
    simpl in H. lia.
  - apply (f_equal String.length) in H. rewrite !string_length_app in H.
    simpl in H. lia.
  - change (String c1 (s1 +:+ t) = String c2 (s2 +:+ t)) in H.
    injection H as -> H. f_equal. by apply IH.
Qed.

Lemma partial_name_inj i j : partial_name i = partial_name j → i = j.
Proof.
  unfold partial_name. intros Hij. apply (inj _) in Hij.
  apply string_app_inj_l in Hij. by apply (inj pretty).
Qed.

Section IngestionFacts.
Context `{Weight W}.
Variable stem : string → string.
Variable load_json : string → option (gmap string string).
Variable html_extract : string → option (string * string).

Implicit Types st : ingest_state W.

Abbreviation add_document' := (add_document stem load_json html_extract).
Abbreviation ingest_file' := (ingest_file stem load_json html_extract).
Abbreviation ingest_loop' := (ingest_loop stem load_json html_extract).

Lemma add_document_is_document root file st :
  is_Some (add_document' root file st) ↔ is_document load_json (root, file).
Proof.
  unfold add_document, is_document. cbn [fst snd].
  destruct (endswith file ".json"); [|split; [by intros [? ?]|by intros [? _]]].
  destruct (read_json_file load_json (path_join root file)) as [content url].
  cbn [fst snd]. case_bool_decide as Hc.
  - split; [by intros [? ?]|by intros [_ ?]].
  - destruct (extract_text_from_html html_extract content) as [text key_text].
    destruct (build_inverted_index _ _ _ _) as [idx lens]. split; [done|by eexists].
Qed.

Lemma add_document_fields root file st st1 :
  add_document' root file st = Some st1 →
  doc_count st1 = (doc_count st + 1)%N ∧ part_num st1 = part_num st
  ∧ partial_files st1 = partial_files st ∧ disk st1 = disk st.
Proof.
  unfold add_document. destruct (endswith file ".json"); [|done].
  destruct (read_json_file load_json (path_join root file)) as [content url].
  case_bool_decide; [done|].
  destruct (extract_text_from_html html_extract content) as [text key_text].
  destruct (build_inverted_index _ _ _ _) as [idx lens].
  by intros [= <-].
Qed.

Lemma flush_if_due_inv st0 st1 :
  flush_inv st0 →
  doc_count st1 = (doc_count st0 + 1)%N → part_num st1 = part_num st0 →
  partial_files st1 = partial_files st0 →
  flush_inv (flush_if_due st1).
Proof.
  intros [Hpart Hfiles] Hcount Hp Hf. unfold flush_inv, flush_if_due.
  pose proof (flush_step (doc_count st0)) as Hstep. rewrite <- Hcount in Hstep.
  destruct (doc_count st1 mod 10000 =? 0)%N; simpl.
  - rewrite Hstep, Hp, Hf, Hpart, Hfiles. split; [done|].
    replace (N.to_nat (doc_count st0 / 10000 + 1))
      with (S (N.to_nat (doc_count st0 / 10000))) by lia.
    rewrite part_names_snoc.
    by replace (N.of_nat (S (N.to_nat (doc_count st0 / 10000))))
      with (doc_count st0 / 10000 + 1)%N by lia.
  - by rewrite Hstep, Hp, Hf.
Qed.

Lemma ingest_file_inv root file st : flush_inv st → flush_inv (ingest_file' root file st).
Proof.
  intros Hinv. unfold ingest_file.
  destruct (add_document' root file st) as [st1|] eqn:Hadd; [|done].
  apply add_document_fields in Hadd as (? & ? & ? & ?).
  by apply (flush_if_due_inv st).
Qed.

Lemma ingest_file_count root file st :
  doc_count (ingest_file' root file st)
  = if decide (is_document load_json (root, file)) then (doc_count st + 1)%N
    else doc_count st.
Proof.
  unfold ingest_file. pose proof (add_document_is_document root file st) as Hdoc.
  destruct (add_document' root file st) as [st1|] eqn:Hadd.
  - rewrite decide_True by (by apply Hdoc).
    apply add_document_fields in Hadd as [<- _].
    unfold flush_if_due. by destruct (_ =? _)%N.
  - rewrite decide_False; [done|]. intros [? ?]%Hdoc. done.
Qed.

Lemma ingest_loop_walk_files walk st :
  ingest_loop' walk st
  = foldl (λ st '(root, file), ingest_file' root file st) st (walk_files walk).
Proof.
  unfold ingest_loop, walk_files. revert st.
  induction walk as [|[root files] walk IH]; intros st; csimpl; [done|].
  rewrite foldl_app, IH. f_equal.
  generalize st. induction files as [|file files IHf]; intros st'; csimpl; [done|].
  apply IHf.
Qed.

Lemma ingest_loop_inv walk st : flush_inv st → flush_inv (ingest_loop' walk st).
Proof.
  rewrite ingest_loop_walk_files. generalize (walk_files walk). intros l.
  revert st. induction l as [|[root file] l IH]; intros st Hinv; simpl; [done|].
  by apply IH, ingest_file_inv.
Qed.

Lemma ingest_loop_count walk st :
  doc_count (ingest_loop' walk st)
  = (doc_count st + N.of_nat (length (filter (is_document load_json) (walk_files walk))))%N.
Proof.
  rewrite ingest_loop_walk_files. generalize (walk_files walk). intros l.
  revert st. induction l as [|[root file] l IH]; intros st; simpl; [lia|].
  rewrite IH, ingest_file_count, filter_cons. case_decide; simpl; lia.
Qed.
End IngestionFacts.

Lemma part_names_lookup k i name :
  part_names k !! i = Some name → name = partial_name (N.of_nat (S i)).
Proof.
  unfold part_names. rewrite list_lookup_fmap.
  destruct (seq 1 k !! i) as [j|] eqn:Hj; [|done].
  apply lookup_seq in Hj as [-> _]. by intros [= <-].
Qed.

Lemma part_names_NoDup k : NoDup (part_names k).
Proof.
  assert (Inj (=) (=) (λ i, partial_name (N.of_nat i))) as Hinj.
  { intros i j Hij. apply partial_name_inj in Hij. lia. }
  apply (NoDup_fmap_2 (λ i, partial_name (N.of_nat i))), NoDup_seq.
Qed.

(** C5. A turn of the ingestion loop flushes the in-memory index to a
    new segment exactly when the count of processed documents reaches a
    multiple of 10,000, and the in-memory index is empty afterwards (the
    document lengths are kept). After the loop one more segment is
    written when the in-memory index is not empty. The list returned
    holds the segment names in the order of creation, the i-th with part
    number i. *)
Theorem process_all_documents_segments `{Weight W} stem load_json html_extract walk
    urls lens (files : gmap string (Index W)) :
  let st := ingest_loop stem load_json html_extract walk (start_state urls lens files) in
  let k := N.to_nat (doc_count st / 10000) in
  let result := process_all_documents stem load_json html_extract walk urls lens files in
  (∀ root file (st0 : ingest_state W),
     let st2 := ingest_file stem load_json html_extract root file st0 in
     match add_document stem load_json html_extract root file st0 with
     | None => st2 = st0
     | Some st1 =>
         doc_count st1 = (doc_count st0 + 1)%N
         ∧ if (doc_count st1 mod 10000 =? 0)%N then
             partial_files st2 = partial_files st0 ++ [partial_name (part_num st0)]
             ∧ disk st2 = <[partial_name (part_num st0) := inverted_index st1]> (disk st0)
             ∧ inverted_index st2 = ∅
             ∧ part_num st2 = (part_num st0 + 1)%N
             ∧ doc_count st2 = doc_count st1
             ∧ doc_lengths st2 = doc_lengths st1
           else st2 = st1 ∧ partial_files st2 = partial_files st0 ∧ disk st2 = disk st0
     end)
  ∧ doc_count st = N.of_nat (length (filter (is_document load_json) (walk_files walk)))
  ∧ partial_files st = part_names k
  ∧ part_num st = N.of_nat (S k)
  ∧ result.1 = (if decide (inverted_index st = ∅) then part_names k else part_names (S k))
  ∧ disk result.2 = (if decide (inverted_index st = ∅) then disk st
                     else <[partial_name (N.of_nat (S k)) := inverted_index st]> (disk st))
  ∧ (∀ i name, result.1 !! i = Some name → name = partial_name (N.of_nat (S i)))
  ∧ NoDup result.1.
Proof.
  intros st k result.
  assert (flush_inv st) as [Hpart Hfiles].
  { apply ingest_loop_inv. by split. }
  assert (part_num st = N.of_nat (S k)) as Hnum by (rewrite Hpart; unfold k; lia).
  assert (result.1 = if decide (inverted_index st = ∅) then part_names k
                     else part_names (S k)) as Hres.
  { unfold result, process_all_documents, final_flush. fold st. cbn [fst].
    case_bool_decide as He.
    - by rewrite decide_True.
    - rewrite decide_False by done. unfold save_partial_index. cbn [partial_files].
      by rewrite Hfiles, Hnum, part_names_snoc. }
  split_and!.
  - intros root file st0 st2. unfold st2, ingest_file.
    destruct (add_document _ _ _ root file st0) as [st1|] eqn:Hadd; [|done].
    apply add_document_fields in Hadd as (Hc & Hp & Hf & Hd). split; [done|].
    unfold flush_if_due. destruct (doc_count st1 mod 10000 =? 0)%N; cbn.
    + by rewrite Hp, Hf, Hd.
    + done.
  - unfold st. by rewrite ingest_loop_count.
  - done.
  - done.
  - done.
  - unfold result, process_all_documents, final_flush. fold st. cbn [snd].
    case_bool_decide as He.
    + by rewrite decide_True.
    + rewrite decide_False by done. unfold save_partial_index. cbn [disk].
      by rewrite Hnum.
  - intros i name. rewrite Hres. case_decide; apply part_names_lookup.
  - rewrite Hres. case_decide; apply part_names_NoDup.
Qed.

Lemma process_all_documents_segments_witness :
  NoDup (process_all_documents (W:=float) stem_as_is example_load_json
           (λ _, Some ("dog cat", "dog"))
           [("/DEV", ["a.json"; "bad.json"]); ("/DEV/sub", ["b.json"])] ∅ ∅ ∅).1.
Proof.
  apply (process_all_documents_segments (W:=float) stem_as_is example_load_json
           (λ _, Some ("dog cat", "dog"))
           [("/DEV", ["a.json"; "bad.json"]); ("/DEV/sub", ["b.json"])] ∅ ∅ ∅).
Defined.

(** C7. A document that cannot be read leaves the state of the run as
    it was, so the run goes on as if the file were not there. A document
    whose extraction fails is treated as a document with empty text: it
    adds no posting, and is counted and given its URL as any document
    is. Neither stops the loop. *)
Theorem failed_document_is_skipped `{Weight W} stem load_json html_extract root file
    (st : ingest_state W) :
  (load_json (path_join root file) = None →
   ingest_file stem load_json html_extract root file st = st
   ∧ ∀ walk1 files1 files2 walk2,
       ingest_loop stem load_json html_extract
         (walk1 ++ (root, files1 ++ file :: files2) :: walk2) st
       = ingest_loop stem load_json html_extract
           (walk1 ++ (root, files1 ++ files2) :: walk2) st)
  ∧ (∀ data content,
       endswith file ".json" = true →
       load_json (path_join root file) = Some data →
       data !! "content" = Some content → content ≠ "" →
       html_extract content = None →
       ingest_file stem load_json html_extract root file st
       = flush_if_due
           {| doc_count := doc_count st + 1;
              part_num := part_num st;
              partial_files := partial_files st;
              inverted_index := inverted_index st;
              doc_id_to_url :=
                <[path_join root file := default "" (data !! "url")]> (doc_id_to_url st);
              doc_lengths := doc_lengths st;
              disk := disk st |}
       ∧ ingest_file stem load_json html_extract root file st
         = ingest_file stem load_json (λ _, Some ("", "")) root file st).
Proof.
  split.
  - intros Hload.
    assert (∀ st' : ingest_state W,
              ingest_file stem load_json html_extract root file st' = st') as Hskip.
    { intros st'. unfold ingest_file, add_document, read_json_file. rewrite Hload.
      by destruct (endswith file ".json"). }
    split; [apply Hskip|]. intros walk1 files1 files2 walk2.
    unfold ingest_loop. rewrite !foldl_app. cbn [foldl]. f_equal.
    rewrite !foldl_app. cbn [foldl]. by rewrite Hskip.
  - intros data content Hjson Hload Hcontent Hne Hextract.
    unfold ingest_file, add_document, read_json_file, extract_text_from_html.
    rewrite Hjson, Hload, Hcontent. cbn [default]. unfold id.
    rewrite bool_decide_eq_false_2, Hextract by done.
    split; reflexivity.
Qed.

Lemma failed_document_is_skipped_witness :
  ingest_file (W:=float) stem_as_is example_load_json example_extract_fails
    "/DEV" "bad.json" (start_state ∅ ∅ ∅)
  = start_state ∅ ∅ ∅
  ∧ ingest_file (W:=float) stem_as_is example_load_json example_extract_fails
      "/DEV" "page.json" (start_state ∅ ∅ ∅)
    = ingest_file stem_as_is example_load_json (λ _, Some ("", ""))
        "/DEV" "page.json" (start_state ∅ ∅ ∅).
Proof.
  split.
  - apply (failed_document_is_skipped (W:=float) stem_as_is example_load_json
             example_extract_fails "/DEV" "bad.json" (start_state ∅ ∅ ∅)).
    reflexivity.
  - apply (proj2 (failed_document_is_skipped (W:=float) stem_as_is example_load_json
                    example_extract_fails "/DEV" "page.json" (start_state ∅ ∅ ∅))
             {["content" := "<b>dog</b>"; "url" := "http://dog"]} "<b>dog</b>");
      try reflexivity.
    discriminate.
Defined.

(** ** The scenarios of the specification *)

Example tokenize_contraction :
  tokenize_and_normalize stem_as_is "Don't STOP_me, now9!" = ["don"; "t"; "stop_me"; "now9"].
Proof. reflexivity. Qed.

Example tokenize_delimiters_only : tokenize_and_normalize stem_as_is " ,.;-- " = [].
Proof. reflexivity. Qed.

(** D1 has the body tokens cat, dog, cat and no key token; D2 has the
    body token dog, which is also a key token. With the floats of the
    code: *)
Example scenario_binary64 :
  let idx : Index float :=
    (build_inverted_index "D2" ["dog"] ["dog"]
       (build_inverted_index "D1" ["cat"; "dog"; "cat"] [] (∅, ∅))).1 in
  posting idx "cat" "D1" = Some 1%float
  ∧ posting idx "dog" "D1" = Some 0.75%float
  ∧ posting idx "dog" "D2" = Some 2%float
  ∧ posting idx "cat" "D2" = None
  ∧ Bool_Search stem_as_is "dog" idx = Some {["D1"; "D2"]}
  ∧ top_docs stem_as_is ["D1"; "D2"] idx "dog" = ["D2"; "D1"]
  ∧ top_docs stem_as_is ["D2"; "D1"] idx "dog" = ["D2"; "D1"]
  ∧ Bool_Search stem_as_is "cat bird" idx = Some {["D1"]}
  ∧ Bool_Search stem_as_is "" idx = Some ∅.
Proof. intros idx. split_and!; vm_compute; reflexivity. Qed.

(** A run over three files, one of them unreadable, then the merge of
    the one segment it writes. *)
Example scenario_run :
  let run := process_all_documents (W:=float) stem_as_is example_load_json
               (λ _, Some ("dog cat dog", "dog"))
               [("/DEV", ["a.json"; "bad.json"; "notes.txt"]); ("/DEV/sub", ["b.json"])]
               ∅ ∅ ∅ in
  run.1 = ["partial_index_1.json"]
  ∧ doc_count run.2 = 2%N
  ∧ doc_lengths run.2 = {["/DEV/a.json" := Sqrt 5; "/DEV/sub/b.json" := Sqrt 5]}
  ∧ doc_id_to_url run.2 = {["/DEV/a.json" := "http://dog"; "/DEV/sub/b.json" := "http://dog"]}
  ∧ (fst <$> merge_partial_indexes run.1 "final_inverted_index.json" (disk run.2))
    = Some (inverted_index run.2)
  ∧ posting (inverted_index run.2) "dog" "/DEV/a.json" = Some 2%float
  ∧ posting (inverted_index run.2) "cat" "/DEV/sub/b.json" = Some 0.75%float.
Proof. intros run. split_and!; vm_compute; reflexivity. Qed.

(** The turn that takes the count to 10,000 writes the first segment
    and empties the index. *)
Example scenario_flush :
  let st := ingest_file stem_as_is example_load_json (λ _, Some ("dog", ""))
              "/DEV" "a.json"
              {| doc_count := 9999; part_num := 1; partial_files := [];
                 inverted_index := (∅ : Index float); doc_id_to_url := ∅;
                 doc_lengths := ∅; disk := ∅ |} in
  doc_count st = 10000%N ∧ part_num st = 2%N
  ∧ partial_files st = ["partial_index_1.json"]
  ∧ inverted_index st = ∅
  ∧ disk st = {["partial_index_1.json" := {["dog" := {["/DEV/a.json" := 1%float]}]}]}.
Proof. intros st. split_and!; vm_compute; reflexivity. Qed.

(** ** Further notions used to state properties of the code *)

(** * Further properties of the code *)

(** ** tokenize_and_normalize *)













(** ** build_inverted_index: what one call leaves alone and what it adds *)

Section BuilderFacts.
Context `{Weight W}.
Implicit Types idx : Index W.

Lemma dom_add_weight t d w idx : dom (add_weight t d w idx) = {[t]} ∪ dom idx.
Proof. unfold add_weight. by rewrite dom_insert_L. Qed.

Lemma lookup_add_weight_ne t d w idx t' :
  t' ≠ t → add_weight t d w idx !! t' = idx !! t'.
Proof. intros. unfold add_weight. by rewrite lookup_insert_ne. Qed.

Lemma build_loop_dom doc (w : string → nat → W) tf idx :
  dom (foldl (λ idx '(token, freq), add_weight token doc (w token freq) idx) idx tf)
  = list_to_set tf.*1 ∪ dom idx.
Proof.
  revert idx. induction tf as [|[t n] tf IH]; intros idx; csimpl.
  - set_solver.
  - rewrite IH, dom_add_weight. set_solver.
Qed.

Lemma build_loop_lookup_ne doc (w : string → nat → W) tf idx t :
  t ∉ tf.*1 →
  foldl (λ idx '(token, freq), add_weight token doc (w token freq) idx) idx tf !! t
  = idx !! t.
Proof.
  revert idx. induction tf as [|[t0 n] tf IH]; intros idx Hnin; csimpl; [done|].
  csimpl in Hnin. apply not_elem_of_cons in Hnin as [Hne Hnin].
  by rewrite IH, lookup_add_weight_ne.
Qed.

Lemma build_inverted_index_dom doc tokens key idx lens :
  dom (build_inverted_index doc tokens key (idx, lens)).1
  = list_to_set tokens ∪ dom idx.
Proof.
  unfold build_inverted_index.
  destruct (count_terms tokens) as [|p tf] eqn:Htf.
  - apply count_terms_nil in Htf as ->. set_solver.
  - rewrite <- Htf. cbn [fst]. rewrite build_loop_dom.
    f_equal. apply set_eq. intros t.
    by rewrite !elem_of_list_to_set, count_terms_keys.
Qed.

Lemma build_inverted_index_lookup_ne doc tokens key idx lens t :
  t ∉ tokens → (build_inverted_index doc tokens key (idx, lens)).1 !! t = idx !! t.
Proof.
  intros Hnin. unfold build_inverted_index.
  destruct (count_terms tokens) as [|p tf] eqn:Htf; [done|].
  rewrite <- Htf. cbn [fst]. apply build_loop_lookup_ne.
  by rewrite count_terms_keys.
Qed.

Lemma build_inverted_index_lengths doc tokens key idx lens :
  (build_inverted_index doc tokens key (idx, lens)).2
  = if decide (tokens = []) then lens
    else <[doc := Sqrt (sum_squares (count_terms tokens))]> lens.
Proof.
  unfold build_inverted_index.
  destruct (count_terms tokens) as [|p tf] eqn:Htf.
  - apply count_terms_nil in Htf as ->. done.
  - rewrite decide_False; [done|]. intros ->. done.
Qed.

(** The index written does not depend on the table of lengths passed. *)
Lemma build_inverted_index_index doc tokens key idx lens lens' :
  (build_inverted_index doc tokens key (idx, lens)).1
  = (build_inverted_index doc tokens key (idx, lens')).1.
Proof. unfold build_inverted_index. by destruct (count_terms tokens). Qed.

(** X3. Adding a document touches nothing but its own postings: the
    posting list of a term the document does not hold is the same map as
    before, the entry of any other document is unchanged under every
    term, the length of any other document is unchanged, and the terms of
    the index are the old ones and the document's tokens. *)
Theorem build_inverted_index_frame doc tokens key idx lens :
  let st' := build_inverted_index doc tokens key (idx, lens) in
  (∀ t, t ∉ tokens → st'.1 !! t = idx !! t)
  ∧ (∀ t d, d ≠ doc → posting st'.1 t d = posting idx t d)
  ∧ (∀ d, d ≠ doc → st'.2 !! d = lens !! d)
  ∧ dom st'.1 = list_to_set tokens ∪ dom idx.
Proof.
  intros st'. subst st'. split_and!.
  - intros t Hnin. by apply build_inverted_index_lookup_ne.
  - intros t d Hne. rewrite build_inverted_index_posting.
    rewrite decide_False; [done|]. naive_solver.
  - intros d Hne. rewrite build_inverted_index_lengths.
    case_decide; [done|]. by rewrite lookup_insert_ne.
  - apply build_inverted_index_dom.
Qed.

Lemma sum_squares_sum tf : sum_squares tf = sum_list_with (λ p, p.2 ^ 2) tf.
Proof.
  unfold sum_squares.
  enough (∀ a, foldl (λ s f, s + f ^ 2) a (tf.*2)
               = a + sum_list_with (λ p, p.2 ^ 2) tf) as -> by done.
  induction tf as [|[t n] tf IH]; intros a; csimpl; [lia|].
  rewrite IH. simpl. lia.
Qed.

Lemma count_terms_Permutation tokens :
  count_terms tokens ≡ₚ (λ t, (t, freq_of t tokens)) <$> remove_dups tokens.
Proof.
  apply NoDup_Permutation.
  - apply (NoDup_fmap_1 fst), count_terms_NoDup.
  - apply NoDup_fmap_2; [by intros ?? [= ->]|apply NoDup_remove_dups].
  - intros [t n]. rewrite count_terms_elem, list_elem_of_fmap.
    split.
    + intros [Hin ->]. exists t. by rewrite elem_of_remove_dups.
    + intros (t' & [= -> ->] & Hin). by rewrite elem_of_remove_dups in Hin.
Qed.

Lemma sum_list_with_fmap {A B} (f : B → nat) (g : A → B) l :
  sum_list_with f (g <$> l) = sum_list_with (f ∘ g) l.
Proof. induction l as [|x l IH]; csimpl; [done|]. by rewrite IH. Qed.

Lemma sum_list_with_le {A} (f g : A → nat) l :
  (∀ x, f x ≤ g x) → sum_list_with f l ≤ sum_list_with g l.
Proof.
  intros Hle. induction l as [|x l IH]; simpl; [done|].
  specialize (Hle x). lia.
Qed.

Lemma sum_squares_count_terms tokens :
  sum_squares (count_terms tokens)
  = sum_list_with (λ t, freq_of t tokens ^ 2) (remove_dups tokens).
Proof.
  by rewrite sum_squares_sum, count_terms_Permutation, sum_list_with_fmap.
Qed.

Lemma freq_of_sum tokens :
  sum_list_with (λ t, freq_of t tokens) (remove_dups tokens) = length tokens.
Proof.
  rewrite <- (sum_list_with_fmap snd (λ t, (t, freq_of t tokens))).
  rewrite <- count_terms_Permutation.
  induction tokens as [|token tokens IH] using rev_ind; [done|].
  rewrite count_terms_snoc, length_app. simpl. rewrite <- IH.
  generalize (count_terms tokens). intros tf.
  induction tf as [|[t n] tf IHtf]; simpl; [done|].
  case_decide; simpl; lia.
Qed.

(** X4. The length recorded for a document with tokens is the square root
    of the sum, over its distinct terms, of the squared raw frequencies,
    whatever weights the index holds (boost and normalisation play no
    part); the radicand is at least the number of tokens.  It replaces
    any length the document had, and a document without tokens records
    none. *)
Theorem build_inverted_index_doc_length doc tokens key idx lens :
  let radicand := sum_list_with (λ t, freq_of t tokens ^ 2) (remove_dups tokens) in
  (build_inverted_index doc tokens key (idx, lens)).2 !! doc
  = (if decide (tokens = []) then lens !! doc else Some (Sqrt radicand))
  ∧ length tokens ≤ radicand.
Proof.
  intros radicand. subst radicand. split.
  - rewrite build_inverted_index_lengths. case_decide; [done|].
    by rewrite lookup_insert_eq, sum_squares_count_terms.
  - rewrite <- freq_of_sum. apply sum_list_with_le.
    intros t. rewrite Nat.pow_2_r. destruct (freq_of t tokens); lia.
Qed.

(** X5. Indexing the same document a second time adds its weights once
    more to its entries, it does not replace them, while its length is
    written again unchanged. *)
Theorem build_inverted_index_twice doc tokens key idx lens t :
  t ∈ tokens →
  let w := key_boost t key (tf_weight (freq_of t tokens) (max_freq tokens)) in
  let once := build_inverted_index doc tokens key (idx, lens) in
  let twice := build_inverted_index doc tokens key once in
  posting once.1 t doc = Some (w_add (weight_of idx t doc) w)
  ∧ posting twice.1 t doc = Some (w_add (w_add (weight_of idx t doc) w) w)
  ∧ twice.2 = once.2.
Proof.
  intros Hin w once twice. subst w once twice.
  destruct (build_inverted_index doc tokens key (idx, lens)) as [idx1 lens1] eqn:Hb.
  assert (idx1 = (build_inverted_index doc tokens key (idx, lens)).1) as Hi
    by by rewrite Hb.
  assert (lens1 = (build_inverted_index doc tokens key (idx, lens)).2) as Hl
    by by rewrite Hb.
  cbn [fst snd]. split_and!.
  - rewrite Hi, build_inverted_index_posting. by rewrite decide_True.
  - rewrite build_inverted_index_posting, decide_True by done.
    rewrite weight_of_posting, Hi, build_inverted_index_posting.
    by rewrite decide_True.
  - rewrite build_inverted_index_lengths, Hl, build_inverted_index_lengths.
    case_decide; [done|]. by rewrite insert_insert_eq.
Qed.
End BuilderFacts.

Lemma build_inverted_index_twice_witness :
  let w := key_boost (W := float) "b" ["b"]
             (tf_weight (freq_of "b" ["a"; "b"; "a"]) (max_freq ["a"; "b"; "a"])) in
  let once := build_inverted_index (W := float) "d" ["a"; "b"; "a"] ["b"] (∅, ∅) in
  let twice := build_inverted_index "d" ["a"; "b"; "a"] ["b"] once in
  posting once.1 "b" "d" = Some (w_add (weight_of ∅ "b" "d") w)
  ∧ posting twice.1 "b" "d" = Some (w_add (w_add (weight_of ∅ "b" "d") w) w)
  ∧ twice.2 = once.2.
Proof.
  apply (build_inverted_index_twice (W := float) "d" ["a"; "b"; "a"] ["b"] ∅ ∅ "b").
  right. left.
Defined.

(** ** Invariants of the index *)

Section InvariantPreserved.
Context `{Weight W}.
Implicit Types (p q : Postings W) (idx seg final : Index W).

Lemma no_empty_postings_add_weight t d w idx :
  no_empty_postings idx → no_empty_postings (add_weight t d w idx).
Proof.
  intros Hidx t' p. unfold add_weight.
  destruct (decide (t' = t)) as [->|Hne].
  - rewrite lookup_insert_eq. intros [= <-]. apply insert_non_empty.
  - rewrite lookup_insert_ne by done. apply Hidx.
Qed.

Lemma no_empty_postings_build doc tokens key idx lens :
  no_empty_postings idx →
  no_empty_postings (build_inverted_index doc tokens key (idx, lens)).1.
Proof.
  unfold build_inverted_index.
  destruct (count_terms tokens) as [|p tf]; [done|]. cbn [fst].
  generalize (max_values (p :: tf)). intros m. generalize (p :: tf). clear p tf.
  intros tf. revert idx. induction tf as [|[t n] tf IH]; intros idx Hidx; [done|].
  simpl. by apply IH, no_empty_postings_add_weight.
Qed.

(** X6. No term of the index ever has an empty posting list: adding a
    document keeps it so, merging a segment into the final index keeps it
    so whatever the segment holds, and the merge of any list of segments
    has none, so a term with no document in a segment file leaves no
    trace in the final index. *)
Theorem no_empty_postings_preserved :
  (∀ doc tokens key idx lens,
     no_empty_postings idx →
     no_empty_postings (build_inverted_index doc tokens key (idx, lens)).1)
  ∧ (∀ seg final, no_empty_postings final →
       no_empty_postings (merge_segment seg final))
  ∧ (∀ segs, no_empty_postings (merge_segments segs)).
Proof.
  split_and!.
  - intros. by apply no_empty_postings_build.
  - intros. rewrite merge_segment_spec. by apply no_empty_postings_acc_index.
  - apply no_empty_postings_merge_segments.
Qed.

(** *** merge_partial_indexes: failure and round trip *)

Lemma merge_loop_failed (disk : gmap string (Index W)) files :
  foldl (λ acc partial, final_index ← acc; partial_index ← disk !! partial;
                        Some (merge_segment partial_index final_index))
        None files = None.
Proof. induction files as [|f files IH]; [done|]. simpl. apply IH. Qed.

Lemma merge_partial_indexes_missing files out (disk : gmap string (Index W)) :
  Exists (λ f, disk !! f = None) files → merge_partial_indexes files out disk = None.
Proof.
  intros Hex. unfold merge_partial_indexes.
  enough (∀ acc,
    foldl (λ acc partial, final_index ← acc; partial_index ← disk !! partial;
                          Some (merge_segment partial_index final_index))
          acc files = None) as -> by done.
  induction Hex as [f files Hf|f files _ IH]; intros acc; simpl.
  - rewrite Hf. destruct acc; simpl; apply merge_loop_failed.
  - apply IH.
Qed.

(** X7. The merge raises exactly when one of the files named cannot be
    read, and then writes nothing; when it returns, the files are as
    before but for the output file, which holds the index returned. *)
Theorem merge_partial_indexes_fails files out (disk : gmap string (Index W)) :
  (merge_partial_indexes files out disk = None
   ↔ ∃ f, f ∈ files ∧ disk !! f = None)
  ∧ (∀ final disk', merge_partial_indexes files out disk = Some (final, disk') →
       disk' !! out = Some final ∧ ∀ f, f ≠ out → disk' !! f = disk !! f).
Proof.
  split.
  - rewrite <- Exists_exists. split; [|apply merge_partial_indexes_missing].
    intros Hnone.
    destruct (decide (Forall (λ f, is_Some (disk !! f)) files)) as [Hall|Hnot].
    + apply read_all_segments in Hall.
      by rewrite (merge_partial_indexes_read _ out _ _ Hall) in Hnone.
    + apply not_Forall_Exists in Hnot; [|apply _].
      eapply Exists_impl; [exact Hnot|]. intros f Hf. simpl in Hf.
      by apply eq_None_not_Some.
  - intros final disk'. unfold merge_partial_indexes.
    destruct (foldl _ _ _) as [final'|]; simpl; [|done].
    intros [= <- <-]. split; [by rewrite lookup_insert_eq|].
    intros f Hne. by rewrite lookup_insert_ne.
Qed.

Lemma acc_index_empty_r idx :
  no_empty_postings idx →
  (∀ t d w, posting idx t d = Some w → w_add w_zero w = w) →
  acc_index idx ∅ = idx.
Proof.
  intros Hne Hzero. apply map_eq. intros t. rewrite lookup_acc_index, lookup_empty.
  destruct (idx !! t) as [p|] eqn:Ht; [|done].
  rewrite decide_False by by eapply Hne. f_equal. simpl.
  apply map_eq. intros d. rewrite lookup_acc_postings, lookup_empty.
  destruct (p !! d) as [w|] eqn:Hd; [|done]. simpl. f_equal.
  apply (Hzero t d). unfold posting. by rewrite Ht.
Qed.

(** X8. Saving an index as a segment and merging that segment alone gives
    the index back, when no term of it has an empty posting list and
    adding each of its weights to zero gives the weight itself. *)
Theorem save_then_merge idx n out (disk : gmap string (Index W)) :
  no_empty_postings idx →
  (∀ t d w, posting idx t d = Some w → w_add w_zero w = w) →
  let saved := save_partial_index idx n disk in
  merge_partial_indexes [saved.1] out saved.2
  = Some (idx, <[out := idx]> saved.2).
Proof.
  intros Hne Hzero saved. subst saved. unfold save_partial_index. cbn [fst snd].
  rewrite (merge_partial_indexes_read _ out _ [idx]).
  - unfold merge_segments. simpl.
    by rewrite merge_segment_spec, acc_index_empty_r.
  - constructor; [by rewrite lookup_insert_eq|constructor].
Qed.
End InvariantPreserved.

Lemma save_then_merge_witness :
  let idx : Index float := {[ "dog" := {[ "/DEV/a.json" := 1.5%float ]} ]} in
  let saved := save_partial_index idx 1 ∅ in
  merge_partial_indexes [saved.1] "final_index.json" saved.2
  = Some (idx, <[ "final_index.json" := idx ]> saved.2).
Proof.
  apply (save_then_merge (W := float)).
  - intros t p [<- <-]%lookup_singleton_Some. apply insert_non_empty.
  - intros t d w. unfold posting.
    destruct (decide (t = "dog")) as [->|Hne].
    + rewrite lookup_singleton_eq. simpl.
      intros [<- <-]%lookup_singleton_Some. reflexivity.
    + by rewrite lookup_singleton_ne.
Defined.

(** *** Non-negative weights, with the floats of the code *)

Lemma weight_of_binary64_nonneg (idx : Index float) t d :
  weights_nonneg idx → (0 <=? weight_of idx t d)%float = true.
Proof.
  intros Hidx. rewrite weight_of_posting.
  destruct (posting idx t d) as [w|] eqn:Hw; simpl; [by eapply Hidx|done].
Qed.

Lemma key_boost_binary64_nonneg t key (f mx : nat) :
  (1 ≤ f ≤ mx)%nat → (Z.of_nat mx < 2 ^ 53)%Z →
  (0 <=? key_boost t key (tf_weight f mx))%float = true.
Proof.
  intros Hf Hmx. destruct (key_boost_binary64_range t key f mx Hf Hmx) as (m & e & Hw).
  apply float_nonneg_spec. by rewrite Hw.
Qed.

Lemma weights_nonneg_build doc tokens key (idx : Index float) lens :
  weights_nonneg idx → (Z.of_nat (max_freq tokens) < 2 ^ 53)%Z →
  weights_nonneg (build_inverted_index doc tokens key (idx, lens)).1.
Proof.
  intros Hidx Hmax t d w. rewrite build_inverted_index_posting.
  case_decide as Hc; [|apply Hidx]. destruct Hc as [-> Hin]. intros [= <-].
  apply float_add_nonneg; [by apply weight_of_binary64_nonneg|].
  apply key_boost_binary64_nonneg; [|done].
  split; [by apply freq_of_pos|apply freq_of_le_max_freq].
Qed.

Lemma weights_nonneg_acc_index (seg final : Index float) :
  weights_nonneg seg → weights_nonneg final → weights_nonneg (acc_index seg final).
Proof.
  intros Hseg Hfinal t d w. rewrite posting_acc_index.
  destruct (posting seg t d) as [ws|] eqn:Hs; [|apply Hfinal].
  intros [= <-]. apply float_add_nonneg; [|by eapply Hseg].
  destruct (posting final t d) as [wf|] eqn:Hf; simpl; [by eapply Hfinal|done].
Qed.

Lemma weights_nonneg_merge_into (final : Index float) segs :
  weights_nonneg final → Forall weights_nonneg segs →
  weights_nonneg (merge_into final segs).
Proof.
  intros Hfinal Hsegs. revert final Hfinal.
  induction Hsegs as [|seg segs Hseg _ IH]; intros final Hfinal; [done|].
  unfold merge_into. simpl. apply IH. rewrite merge_segment_spec.
  by apply weights_nonneg_acc_index.
Qed.

Lemma weights_nonneg_empty : weights_nonneg ∅.
Proof. intros t d w. unfold posting. by rewrite lookup_empty. Qed.

(** X9. With the floats of the code every weight that the builder and
    the merge write is a non-negative number, which is what the ranking
    needs to be in the order of the scores: adding a document whose
    frequencies are below [2 ^ 53] keeps the weights of the index
    non-negative, and so does merging segments whose weights are. *)
Theorem weights_nonneg_preserved :
  (∀ doc tokens key (idx : Index float) lens,
     weights_nonneg idx → (Z.of_nat (max_freq tokens) < 2 ^ 53)%Z →
     weights_nonneg (build_inverted_index doc tokens key (idx, lens)).1)
  ∧ (∀ seg final : Index float,
       weights_nonneg seg → weights_nonneg final →
       weights_nonneg (merge_segment seg final))
  ∧ (∀ segs : list (Index float),
       Forall weights_nonneg segs → weights_nonneg (merge_segments segs)).
Proof.
  split_and!.
  - intros. by apply weights_nonneg_build.
  - intros. rewrite merge_segment_spec. by apply weights_nonneg_acc_index.
  - intros segs Hsegs.
    apply (weights_nonneg_merge_into ∅); [apply weights_nonneg_empty|done].
Qed.

(** ** From the run to the merged index *)

Lemma partial_name_fresh (q : N) :
  partial_name (q + 1) ∉ part_names (N.to_nat q).
Proof.
  intros [i Hi]%list_elem_of_lookup.
  pose proof (lookup_lt_Some _ _ _ Hi) as Hlt.
  unfold part_names in Hlt. rewrite length_fmap, length_seq in Hlt.
  apply part_names_lookup, partial_name_inj in Hi. lia.
Qed.

Lemma pair_weights_snoc {W} (segs : list (Index W)) seg t d :
  pair_weights (segs ++ [seg]) t d
  = pair_weights segs t d ++ option_list (posting seg t d).
Proof.
  unfold pair_weights. rewrite omap_app. csimpl.
  by destruct (posting seg t d).
Qed.

Lemma Forall2_insert_fresh {W} (disk : gmap string (Index W)) name seg0 files segs :
  name ∉ files →
  Forall2 (λ f seg, disk !! f = Some seg) files segs →
  Forall2 (λ f seg, <[name := seg0]> disk !! f = Some seg) files segs.
Proof.
  intros Hfresh Hread. induction Hread as [|f seg files segs Hf _ IH]; [constructor|].
  apply not_elem_of_cons in Hfresh as [Hne Hfresh].
  constructor; [by rewrite lookup_insert_ne|by apply IH].
Qed.

Section PipelineFacts.
Context `{Weight W}.
Variable stem : string → string.
Variable load_json : string → option (gmap string string).
Variable html_extract : string → option (string * string).

Implicit Types (st su : ingest_state W) (idx : Index W).

(** The first half of the loop body, by cases on the file. *)
Lemma add_document_spec root file st :
  add_document stem load_json html_extract root file st
  = if decide (is_document load_json (root, file)) then
      let path := path_join root file in
      let page := read_json_file load_json path in
      let texts := extract_text_from_html html_extract page.1 in
      let built :=
        build_inverted_index path (tokenize_and_normalize stem texts.1)
          (tokenize_and_normalize stem texts.2)
          (inverted_index st, doc_lengths st) in
      Some {| doc_count := doc_count st + 1;
              part_num := part_num st;
              partial_files := partial_files st;
              inverted_index := built.1;
              doc_id_to_url := <[path := page.2]> (doc_id_to_url st);
              doc_lengths := built.2;
              disk := disk st |}
    else None.
Proof.
  unfold add_document. case_decide as Hdoc; unfold is_document in Hdoc;
    cbn [fst snd] in Hdoc.
  - destruct Hdoc as [-> Hcontent].
    destruct (read_json_file load_json (path_join root file)) as [content url].
    cbn [fst snd] in *. rewrite bool_decide_eq_false_2 by done.
    destruct (extract_text_from_html html_extract content) as [text key_text].
    cbn [fst snd]. by destruct (build_inverted_index _ _ _ _).
  - destruct (endswith file ".json"); [|done].
    destruct (read_json_file load_json (path_join root file)) as [content url].
    cbn [fst snd] in *. case_bool_decide; [done|]. naive_solver.
Qed.

(** A pair of [idx] is in no segment and not in memory when its DocID
    is new. *)
Lemma segments_cover_fresh st idx paths segs t d :
  docs_among idx paths → d ∉ paths →
  (∀ t d, (length (pair_weights (segs ++ [inverted_index st]) t d) ≤ 1)%nat
          ∧ posting idx t d = head (pair_weights (segs ++ [inverted_index st]) t d)) →
  pair_weights segs t d = [] ∧ posting (inverted_index st) t d = None
  ∧ posting idx t d = None.
Proof.
  intros Hamong Hfresh Hcov. destruct (Hcov t d) as [_ Hhead].
  assert (posting idx t d = None) as Hnone.
  { destruct (posting idx t d) as [w|] eqn:Hw; [|done].
    by apply Hamong in Hw. }
  rewrite Hnone, pair_weights_snoc in Hhead.
  destruct (pair_weights segs t d) as [|w ws]; [|done].
  by destruct (posting (inverted_index st) t d).
Qed.

Hypothesis add_zero_idemp : ∀ x : W, w_add w_zero (w_add w_zero x) = w_add w_zero x.

Lemma add_document_cover root file st su st1 su1 paths :
  add_document stem load_json html_extract root file st = Some st1 →
  add_document stem load_json html_extract root file su = Some su1 →
  path_join root file ∉ paths →
  segments_cover st (inverted_index su) →
  docs_among (inverted_index su) paths → zero_stable (inverted_index su) →
  segments_cover st1 (inverted_index su1)
  ∧ docs_among (inverted_index su1) (paths ++ [path_join root file])
  ∧ zero_stable (inverted_index su1).
Proof.
  rewrite !add_document_spec. case_decide; [|done]. cbv zeta.
  intros Hst1 Hsu1 Hfresh (segs & Hread & Hcov) Hamong Hstable.
  apply (inj Some) in Hst1, Hsu1. subst st1 su1.
  unfold segments_cover. cbn [inverted_index disk partial_files].
  set (path := path_join root file) in *.
  set (page := read_json_file load_json path).
  set (texts := extract_text_from_html html_extract page.1).
  set (tokens := tokenize_and_normalize stem texts.1).
  set (key := tokenize_and_normalize stem texts.2).
  split_and!.
  - exists segs. split; [done|]. intros t d.
    rewrite pair_weights_snoc, !build_inverted_index_posting.
    destruct (decide (d = path ∧ t ∈ tokens)) as [[-> Hin]|Hn].
    + destruct (segments_cover_fresh st _ paths segs t path Hamong Hfresh Hcov)
        as (-> & Hst & Hsu).
      rewrite !weight_of_posting, Hst, Hsu. done.
    + rewrite <- pair_weights_snoc. apply Hcov.
  - intros t d w. rewrite build_inverted_index_posting.
    case_decide as Hc.
    + destruct Hc as [-> _]. intros _. apply elem_of_app. right. left.
    + intros Hw%Hamong. apply elem_of_app. by left.
  - intros t d w. rewrite build_inverted_index_posting.
    case_decide as Hc; [|apply Hstable]. destruct Hc as [-> Hin]. intros [= <-].
    assert (posting (inverted_index su) t path = None) as Hsu.
    { destruct (posting (inverted_index su) t path) as [w|] eqn:Hw; [|done].
      by apply Hamong in Hw. }
    rewrite weight_of_posting, Hsu. apply add_zero_idemp.
Qed.

Lemma flush_if_due_cover st0 st1 idx :
  flush_inv st0 → part_num st1 = part_num st0 →
  partial_files st1 = partial_files st0 →
  segments_cover st1 idx → segments_cover (flush_if_due st1) idx.
Proof.
  intros [Hpart Hfiles] Hp Hf (segs & Hread & Hcov). unfold flush_if_due.
  destruct (doc_count st1 mod 10000 =? 0)%N; [|by exists segs].
  exists (segs ++ [inverted_index st1]). cbn. split.
  - apply Forall2_app.
    + apply Forall2_insert_fresh; [|done].
      rewrite Hf, Hfiles, Hp, Hpart. apply partial_name_fresh.
    + constructor; [by rewrite lookup_insert_eq|constructor].
  - intros t d. rewrite (pair_weights_snoc (segs ++ _)).
    unfold posting at 1 3. rewrite lookup_empty. simpl. rewrite !app_nil_r.
    apply Hcov.
Qed.

Lemma ingest_file_cover root file st su paths :
  flush_inv st →
  (is_document load_json (root, file) → path_join root file ∉ paths) →
  segments_cover st (inverted_index su) →
  docs_among (inverted_index su) paths → zero_stable (inverted_index su) →
  let su1 := default su (add_document stem load_json html_extract root file su) in
  segments_cover (ingest_file stem load_json html_extract root file st)
    (inverted_index su1)
  ∧ docs_among (inverted_index su1) (paths ++ document_paths load_json [(root, file)])
  ∧ zero_stable (inverted_index su1).
Proof.
  intros Hinv Hfresh Hcov Hamong Hstable su1. subst su1.
  unfold ingest_file, document_paths. rewrite filter_cons, filter_nil.
  pose proof (add_document_is_document stem load_json html_extract root file st) as Hst.
  pose proof (add_document_is_document stem load_json html_extract root file su) as Hsu.
  destruct (decide (is_document load_json (root, file))) as [Hdoc|Hdoc].
  - destruct (proj2 Hst Hdoc) as [st1 Hadd]. destruct (proj2 Hsu Hdoc) as [su1 Haddu].
    rewrite Hadd, Haddu. csimpl.
    pose proof (add_document_fields _ _ _ _ _ _ _ Hadd) as (_ & Hp & Hf & _).
    destruct (add_document_cover root file st su st1 su1 paths Hadd Haddu
                (Hfresh Hdoc) Hcov Hamong Hstable) as (Hc & Ha & Hs).
    split_and!; [|done|done]. by apply (flush_if_due_cover st).
  - destruct (add_document _ _ _ root file st) as [st1|] eqn:Hadd.
    { destruct Hdoc. apply Hst. by eexists. }
    destruct (add_document _ _ _ root file su) as [su1|] eqn:Haddu.
    { destruct Hdoc. apply Hsu. by eexists. }
    csimpl. by rewrite app_nil_r.
Qed.

Lemma document_paths_cons root_file files :
  document_paths load_json (root_file :: files)
  = document_paths load_json [root_file] ++ document_paths load_json files.
Proof.
  unfold document_paths. rewrite <- fmap_app. f_equal.
  rewrite !filter_cons, filter_nil. by case_decide.
Qed.

Lemma ingest_files_cover files st su paths :
  flush_inv st → NoDup (paths ++ document_paths load_json files) →
  segments_cover st (inverted_index su) →
  docs_among (inverted_index su) paths → zero_stable (inverted_index su) →
  let st' := foldl (λ st '(root, file),
                      ingest_file stem load_json html_extract root file st) st files in
  let su' := ingest_unsegmented stem load_json html_extract files su in
  flush_inv st' ∧ segments_cover st' (inverted_index su')
  ∧ zero_stable (inverted_index su').
Proof.
  revert st su paths. unfold ingest_unsegmented.
  induction files as [|[root file] files IH]; intros st su paths Hinv Hnd Hcov Ha Hs;
    [done|].
  cbn [foldl]. rewrite document_paths_cons, app_assoc in Hnd.
  destruct (ingest_file_cover root file st su paths) as (Hc1 & Ha1 & Hs1);
    [done| |done..|].
  { intros Hdoc Hin. apply NoDup_app in Hnd as [Hnd _].
    apply NoDup_app in Hnd as (_ & Hdisj & _). apply (Hdisj _ Hin).
    unfold document_paths. rewrite filter_cons, filter_nil, decide_True by done.
    left. }
  apply (IH _ _ (paths ++ document_paths load_json [(root, file)]));
    [by apply ingest_file_inv|done..].
Qed.

Lemma ingest_unsegmented_no_empty files su :
  no_empty_postings (inverted_index su) →
  no_empty_postings
    (inverted_index (ingest_unsegmented stem load_json html_extract files su)).
Proof.
  unfold ingest_unsegmented. revert su.
  induction files as [|[root file] files IH]; intros su Hne; [done|].
  simpl. apply IH. rewrite add_document_spec. case_decide; [|done].
  simpl. by apply no_empty_postings_build.
Qed.

Lemma final_flush_cover st idx :
  flush_inv st → segments_cover st idx →
  ∃ segs, Forall2 (λ f seg, disk (final_flush st) !! f = Some seg)
                  (partial_files (final_flush st)) segs
          ∧ ∀ t d, (length (pair_weights segs t d) ≤ 1)%nat
                   ∧ posting idx t d = head (pair_weights segs t d).
Proof.
  intros [Hpart Hfiles] (segs & Hread & Hcov). unfold final_flush.
  case_bool_decide as He.
  - exists segs. split; [done|]. intros t d. specialize (Hcov t d).
    rewrite pair_weights_snoc, He in Hcov. unfold posting at 1 3 in Hcov.
    rewrite lookup_empty in Hcov. simpl in Hcov. by rewrite !app_nil_r in Hcov.
  - exists (segs ++ [inverted_index st]). cbn. split; [|done].
    apply Forall2_app.
    + apply Forall2_insert_fresh; [|done].
      rewrite Hfiles, Hpart. apply partial_name_fresh.
    + constructor; [by rewrite lookup_insert_eq|constructor].
Qed.

Lemma process_then_merge_index walk urls lens files out :
  NoDup (document_paths load_json (walk_files walk)) →
  let result := process_all_documents stem load_json html_extract walk urls lens files in
  let final := index_unsegmented stem load_json html_extract walk in
  merge_partial_indexes result.1 out (disk result.2)
  = Some (final, <[out := final]> (disk result.2)).
Proof.
  intros Hnd result final. subst result final.
  unfold process_all_documents, index_unsegmented. cbn [fst snd].
  rewrite ingest_loop_walk_files.
  destruct (ingest_files_cover (walk_files walk) (start_state urls lens files)
              (start_state ∅ ∅ ∅) []) as (Hinv & Hcov & Hstable).
  { by split. }
  { done. }
  { exists []. split; [constructor|]. intros t d.
    rewrite pair_weights_snoc. unfold posting, pair_weights. cbn [inverted_index start_state].
    rewrite !lookup_empty. simpl. split; [lia|done]. }
  { intros t d w. unfold posting. simpl. by rewrite lookup_empty. }
  { intros t d w. unfold posting. simpl. by rewrite lookup_empty. }
  destruct (final_flush_cover _ _ Hinv Hcov) as (segs & Hread & Hw).
  rewrite (merge_partial_indexes_read _ out _ segs Hread).
  set (su := ingest_unsegmented stem load_json html_extract (walk_files walk)
               (start_state ∅ ∅ ∅)) in *.
  assert (merge_segments segs = inverted_index su) as ->; [|done].
  apply index_eq_posting; [apply no_empty_postings_merge_segments| |].
  { apply ingest_unsegmented_no_empty, no_empty_postings_empty. }
  intros t d. rewrite posting_merge_segments. destruct (Hw t d) as [Hlen Hhead].
  destruct (pair_weights segs t d) as [|w [|w' ws]]; simpl in *; [done| |lia].
  rewrite Hhead. f_equal. by apply (Hstable t d).
Qed.
End PipelineFacts.

(** X10. Merging the segments that a run has written gives the index
    that the same documents give when nothing is flushed, whatever files
    were there before and however many flushes took place, when no two
    documents of the walk have the same path and adding zero twice is
    adding it once, as it is with the floats of the code: cutting the run
    into segments changes nothing in the index that is searched.  The
    merge does not fail on the files that the run returns. *)
Theorem process_then_merge `{Weight W} stem load_json html_extract walk urls lens
    (files : gmap string (Index W)) out :
  (∀ x : W, w_add w_zero (w_add w_zero x) = w_add w_zero x) →
  NoDup (document_paths load_json (walk_files walk)) →
  let result := process_all_documents stem load_json html_extract walk urls lens files in
  let final := index_unsegmented stem load_json html_extract walk in
  merge_partial_indexes result.1 out (disk result.2)
  = Some (final, <[out := final]> (disk result.2)).
Proof. intros Hzero Hnd. by apply process_then_merge_index. Qed.

Lemma binary64_add_zero_idemp (x : float) :
  w_add w_zero (w_add w_zero x) = w_add w_zero x.
Proof. apply float_add_zero_idemp. Qed.

Lemma process_then_merge_witness :
  let result :=
    process_all_documents (W := float) stem_as_is example_load_json
      (λ _, Some ("dog cat", "dog"))
      [("/DEV", ["a.json"; "bad.json"]); ("/DEV/sub", ["b.json"])] ∅ ∅ ∅ in
  let final :=
    index_unsegmented (W := float) stem_as_is example_load_json
      (λ _, Some ("dog cat", "dog"))
      [("/DEV", ["a.json"; "bad.json"]); ("/DEV/sub", ["b.json"])] in
  merge_partial_indexes result.1 "final_index.json" (disk result.2)
  = Some (final, <[ "final_index.json" := final ]> (disk result.2)).
Proof.
  apply (process_then_merge (W := float) stem_as_is example_load_json
           (λ _, Some ("dog cat", "dog"))
           [("/DEV", ["a.json"; "bad.json"]); ("/DEV/sub", ["b.json"])] ∅ ∅ ∅
           "final_index.json" binary64_add_zero_idemp).
  vm_compute. apply NoDup_cons. split; [|apply NoDup_singleton].
  intros Hin%list_elem_of_singleton. discriminate Hin.
Defined.

(** ** The URL table that a run leaves *)

Section UrlFacts.
Context `{Weight W}.
Variable stem : string → string.
Variable load_json : string → option (gmap string string).
Variable html_extract : string → option (string * string).

Implicit Types st : ingest_state W.

Lemma ingest_file_urls root file st :
  doc_id_to_url (ingest_file stem load_json html_extract root file st)
  = if decide (is_document load_json (root, file))
    then <[path_join root file := (read_json_file load_json (path_join root file)).2]>
           (doc_id_to_url st)
    else doc_id_to_url st.
Proof.
  unfold ingest_file. rewrite add_document_spec. case_decide; [|done].
  cbv zeta. unfold flush_if_due. by destruct (_ =? _)%N.
Qed.

Lemma document_paths_singleton root file :
  document_paths load_json [(root, file)]
  = if decide (is_document load_json (root, file)) then [path_join root file] else [].
Proof.
  unfold document_paths. rewrite filter_cons, filter_nil. by case_decide.
Qed.

Lemma ingest_files_urls files st p :
  doc_id_to_url
    (foldl (λ st '(root, file), ingest_file stem load_json html_extract root file st)
           st files) !! p
  = if decide (p ∈ document_paths load_json files)
    then Some (read_json_file load_json p).2
    else doc_id_to_url st !! p.
Proof.
  revert st. induction files as [|[root file] files IH]; intros st.
  { cbn [foldl]. case_decide as Hin; [|done]. by apply elem_of_nil in Hin. }
  cbn [foldl]. rewrite IH, ingest_file_urls, (document_paths_cons load_json).
  rewrite document_paths_singleton.
  destruct (decide (is_document load_json (root, file))) as [Hdoc|Hdoc]; csimpl.
  - destruct (decide (p = path_join root file)) as [->|Hne].
    + rewrite lookup_insert_eq, (decide_True (P := _ ∈ _ :: _)) by left.
      by case_decide.
    + rewrite lookup_insert_ne by done.
      repeat case_decide; try done; set_solver.
  - done.
Qed.

(** X11. After a run the URL table holds, for every file of the walk
    that was taken as a document, the URL read from that file, and is as
    before for every other path; no flush touches it.  So a hit among
    the documents of the run is shown with its URL, never as
    "URL Not Found". *)
Theorem process_all_documents_urls walk urls lens (files : gmap string (Index W)) :
  let st := (process_all_documents stem load_json html_extract walk urls lens files).2 in
  (∀ p, doc_id_to_url st !! p
        = if decide (p ∈ document_paths load_json (walk_files walk))
          then Some (read_json_file load_json p).2
          else urls !! p)
  ∧ (∀ result_docs (idx : Index W) query,
       (∀ d, d ∈ result_docs → d ∈ document_paths load_json (walk_files walk)) →
       print_top_5_urls stem (doc_id_to_url st) result_docs idx query
       = (λ d, (read_json_file load_json d).2) <$> top_docs stem result_docs idx query).
Proof.
  intros st.
  assert (∀ p, doc_id_to_url st !! p
               = if decide (p ∈ document_paths load_json (walk_files walk))
                 then Some (read_json_file load_json p).2
                 else urls !! p) as Hurls.
  { intros p. unfold st, process_all_documents. cbn [snd].
    assert (∀ st0 : ingest_state W,
              doc_id_to_url (final_flush st0) = doc_id_to_url st0) as ->.
    { intros st0. unfold final_flush. by case_bool_decide. }
    by rewrite ingest_loop_walk_files, ingest_files_urls. }
  split; [done|]. intros result_docs idx query Hdocs.
  unfold print_top_5_urls. apply list_fmap_ext. intros i d Hd.
  rewrite Hurls, decide_True; [done|].
  apply Hdocs. apply list_elem_of_lookup_2 in Hd. unfold top_docs in Hd.
  apply subseteq_take in Hd. by rewrite sorted_reverse_Permutation in Hd.
Qed.
End UrlFacts.

(** ** The terms of a query as a set *)

(** X12. The boolean result depends on the set of the normalized query
    terms only, not on their order or number: two queries with the same
    terms have the same result, so swapping two parts of a query changes
    nothing. *)
Theorem Bool_Search_terms {W} stem queries queries' (idx : Index W) :
  (∀ t, t ∈ tokenize_and_normalize stem queries
        ↔ t ∈ tokenize_and_normalize stem queries') →
  Bool_Search stem queries idx = Bool_Search stem queries' idx
  ∧ ∀ a b, Bool_Search stem (a +:+ " " +:+ b) idx
           = Bool_Search stem (b +:+ " " +:+ a) idx.
Proof.
  assert (∀ q q', (∀ t, t ∈ tokenize_and_normalize stem q
                        ↔ t ∈ tokenize_and_normalize stem q') →
                  Bool_Search stem q idx = Bool_Search stem q' idx) as Hsame.
  { intros q q' Hterms.
    destruct (Bool_Search_elem stem q idx) as [r [-> Hr]].
    destruct (Bool_Search_elem stem q' idx) as [r' [-> Hr']].
    f_equal. apply set_eq. intros d. rewrite Hr, Hr'. unfold matches_query.
    split; intros [[t [Hin Hsome]] Hall]; (split; [exists t; split; [by apply Hterms|done]|]);
      intros t' p' Hin'; apply Hall; by apply Hterms. }
  intros Hterms. split; [by apply Hsame|].
  intros a b. apply Hsame. intros t.
  rewrite !tokenize_and_normalize_space, !elem_of_app. tauto.
Qed.

Lemma Bool_Search_terms_witness :
  Bool_Search stem_as_is "cat dog cat"
    ({["cat" := {["D1" := 1%float]}]} : Index float)
  = Bool_Search stem_as_is "dog cat" {["cat" := {["D1" := 1%float]}]}
  ∧ ∀ a b, Bool_Search stem_as_is (a +:+ " " +:+ b)
             ({["cat" := {["D1" := 1%float]}]} : Index float)
           = Bool_Search stem_as_is (b +:+ " " +:+ a) {["cat" := {["D1" := 1%float]}]}.
Proof.
  apply (Bool_Search_terms stem_as_is "cat dog cat" "dog cat").
  intros t. vm_compute tokenize_and_normalize.
  rewrite !elem_of_cons, !elem_of_nil. tauto.
Defined.
